(** * Seam carving (userbot/scaleutils/seam_carver.py)

    A shallow embedding of the width-reducing seam carver and the proofs of
    its specification.

    Data.  A numpy array is a nested list: an image of shape
    (height, width, channels) is a list of rows, a row a list of pixels, a
    pixel the list of its channel values; an energy grid, the cumulative
    table and the offset grid are lists of rows of numbers.  numpy arrays
    are rectangular by construction, which the predicates [rect] and
    [image_shape] express.  Numbers are integers of [Z] with the
    wrap-around of their machine type written out: the energy map is
    computed in the integer dtype of the image ([wrap d] after every
    subtraction, square and sum), the cells of the cumulative table are
    int64 ([int64] at every store).  The floating dtypes and uint64, whose
    energies compiled code adds to an int64 cell in float64, are left out.

    Effects.  Python exceptions are the [Raise] results of an error monad;
    the loops that fill the two tables by assignment thread the pair of
    tables through [for_each]; the buffers that [resize_image] reads and
    allocates live in an explicit store ([Module Store]).

    Compiled code.  [cumulative_energy], [seam_end] and [find_seam] are
    compiled by numba ([@njit]), which indexes arrays without a bounds
    check.  An index outside the array is the result [Undefined]: the
    source gives such an access no meaning, and the theorems on the
    compiled functions are about the runs that make none.  Inside the
    array compiled code and Python agree; [remove_seam], the energy map
    and the loop of [resize_image] are plain Python, where an index
    outside the array raises [IndexError]. *)

From Stdlib Require Import ZArith Lia List Bool.
From stdpp Require Import base list.
Import ListNotations.

Local Open Scope Z_scope.

(** ** Exceptions and the error monad *)

Inductive exn : Type :=
  | IndexError
  | ValueError
  | AttributeError
  | StopIteration.

(** What a call does: it returns, it raises, or it makes an unchecked
    access outside an array. *)
Inductive result (A : Type) : Type :=
  | Ok (a : A)
  | Raise (e : exn)
  | Undefined.

Arguments Ok {A} a.
Arguments Raise {A} e.
Arguments Undefined {A}.

Definition bind {A B} (r : result A) (k : A -> result B) : result B :=
  match r with
  | Ok a => k a
  | Raise e => Raise e
  | Undefined => Undefined
  end.

Notation "'let*' x ':=' e 'in' k" := (bind e (fun x => k))
  (at level 10, x pattern, e at level 100, k at level 200).

(** [for x in xs: s = body(s, x)], stopping at the first exception. *)
Fixpoint for_each {S A} (body : S -> A -> result S) (xs : list A) (s : S)
  : result S :=
  match xs with
  | [] => Ok s
  | x :: xs' => let* s' := body s x in for_each body xs' s'
  end.

(** [[f(x) for x in xs]], stopping at the first exception. *)
Fixpoint comprehension {A B} (f : A -> result B) (xs : list A)
  : result (list B) :=
  match xs with
  | [] => Ok []
  | x :: xs' =>
      let* y := f x in
      let* ys := comprehension f xs' in
      Ok (y :: ys)
  end.

(** ** Integer dtypes *)

Inductive dtype : Type :=
  | UInt8 | UInt16 | UInt32
  | Int8 | Int16 | Int32 | Int64.

Definition bits (d : dtype) : Z :=
  match d with
  | UInt8 | Int8 => 8
  | UInt16 | Int16 => 16
  | UInt32 | Int32 => 32
  | Int64 => 64
  end.

Definition signed (d : dtype) : bool :=
  match d with
  | UInt8 | UInt16 | UInt32 => false
  | Int8 | Int16 | Int32 | Int64 => true
  end.

(** The value of the dtype that an integer wraps around to: the one
    congruent to it modulo [2 ^ bits]. *)
Definition wrap (d : dtype) (z : Z) : Z :=
  let m := 2 ^ bits d in
  if signed d then (z + m / 2) mod m - m / 2 else z mod m.

(** The values of the dtype. *)
Definition dtype_min (d : dtype) : Z :=
  if signed d then - 2 ^ (bits d - 1) else 0.

Definition dtype_max (d : dtype) : Z :=
  if signed d then 2 ^ (bits d - 1) - 1 else 2 ^ bits d - 1.

Definition in_dtype (d : dtype) (z : Z) : Prop :=
  dtype_min d <= z <= dtype_max d.

(** Arithmetic of arrays of the dtype. *)
Definition dtype_add (d : dtype) (u v : Z) : Z := wrap d (u + v).
Definition dtype_sub (d : dtype) (u v : Z) : Z := wrap d (u - v).
Definition dtype_square (d : dtype) (v : Z) : Z := wrap d (v ^ 2).

(** What an int64 cell holds after a store. *)
Definition int64 (z : Z) : Z := wrap Int64 z.

(** ** Arrays *)

Abbreviation pixel := (list Z) (only parsing).
Abbreviation image := (list (list (list Z))) (only parsing).
Abbreviation grid := (list (list Z)) (only parsing).

(** [a[i]] for an index that a [range] produced (never negative). *)
Definition getitem {A} (a : list A) (i : nat) : result A :=
  match a !! i with
  | Some x => Ok x
  | None => Raise IndexError
  end.

(** [a[k]] for a Python int: a negative index counts from the end. *)
Definition getitem_int {A} (a : list A) (k : Z) : result A :=
  let n := Z.of_nat (length a) in
  if (0 <=? k) && (k <? n) then getitem a (Z.to_nat k)
  else if (- n <=? k) && (k <? 0) then getitem a (Z.to_nat (k + n))
  else Raise IndexError.

(** [a[i]] in compiled code, for an index that a [range] produced: no
    bounds check. *)
Definition load {A} (a : list A) (i : nat) : result A :=
  match a !! i with
  | Some x => Ok x
  | None => Undefined
  end.

(** [a[k]] in compiled code: the length is added to a negative index, and
    the access is not checked. *)
Definition load_int {A} (a : list A) (k : Z) : result A :=
  let n := Z.of_nat (length a) in
  if (0 <=? k) && (k <? n) then load a (Z.to_nat k)
  else if (- n <=? k) && (k <? 0) then load a (Z.to_nat (k + n))
  else Undefined.

(** [a[i][j]] and [a[i][j] = v] in compiled code. *)
Definition getitem2 (a : grid) (i j : nat) : result Z :=
  let* row := load a i in load row j.

Definition setitem2 (a : grid) (i j : nat) (v : Z) : result grid :=
  let* row := load a i in
  let* _ := load row j in
  Ok (<[i := <[j := v]> row]> a).

(** [a[i] = row] in compiled code. *)
Definition setrow (a : grid) (i : nat) (row : list Z) : result grid :=
  let* _ := load a i in Ok (<[i := row]> a).

(** [a[lo:hi]] for [0 <= lo]: the part of the slice that exists. *)
Definition slice {A} (a : list A) (lo hi : nat) : list A :=
  take (hi - lo) (drop lo a).

(** [np.zeros((height, width), dtype=int64)]. *)
Definition zeros (height width : nat) : grid :=
  replicate height (replicate width 0).

(** [a.shape] of a two-dimensional array. *)
Definition height {A} (a : list (list A)) : nat := length a.

Definition width {A} (a : list (list A)) : nat :=
  match a with
  | [] => 0%nat
  | row :: _ => length row
  end.

(** [a.min()]: the least element, [ValueError] when empty. *)
Definition np_min (a : list Z) : result Z :=
  match a with
  | [] => Raise ValueError
  | x :: a' => Ok (fold_left Z.min a' x)
  end.

(** [min(a)] in compiled code: the builtin takes the first element of the
    iteration and compares the others with it; on an empty array the
    iteration ends at once, with [StopIteration]. *)
Definition builtin_min (a : list Z) : result Z :=
  match a with
  | [] => Raise StopIteration
  | x :: a' => Ok (fold_left Z.min a' x)
  end.

(** Position of the first element equal to [v], if any. *)
Fixpoint first_index (a : list Z) (v : Z) : option nat :=
  match a with
  | [] => None
  | x :: a' => if x =? v then Some 0%nat else S <$> first_index a' v
  end.

(** [np.where(a == v)[0][0]] in compiled code. *)
Definition where_first (a : list Z) (v : Z) : result nat :=
  match first_index a v with
  | Some k => Ok k
  | None => Undefined
  end.

(** [list(a).index(v)]. *)
Definition list_index (a : list Z) (v : Z) : result Z :=
  match first_index a v with
  | Some k => Ok (Z.of_nat k)
  | None => Raise ValueError
  end.

(** [np.roll(a, shift)] along the first axis: the element at [i] moves to
    [(i + shift) mod n]. *)
Definition roll {A} (shift : Z) (a : list A) : list A :=
  let n := length a in
  match n with
  | O => a
  | _ =>
      let k := Z.to_nat (shift mod Z.of_nat n) in
      drop (n - k) a ++ take (n - k) a
  end.

(** [np.delete(a, k, axis=0)] for an int [k]. *)
Definition np_delete {A} (a : list A) (k : Z) : result (list A) :=
  let n := Z.of_nat (length a) in
  if (k <? - n) || (n <=? k) then Raise IndexError
  else
    let k' := Z.to_nat (if k <? 0 then k + n else k) in
    Ok (take k' a ++ drop (S k') a).

(** The value an int64 cell holds after a NaN was stored in it.  Row 0 of
    the offset grid is filled with it and never read. *)
Definition nan_int64 : Z := - 2 ^ 63.

(** ** The seam carver *)

(** Elementwise arithmetic of equally shaped three-dimensional arrays of
    dtype [d]: the result has the dtype of the operands. *)
Definition elementwise (f : Z -> Z -> Z) (a b : image) : image :=
  zip_with (zip_with (zip_with f)) a b.

(** [pow(a, 2)]: the exponent is a Python int, the dtype stays. *)
Definition square (d : dtype) (a : image) : image :=
  map (map (map (dtype_square d))) a.

(** Python's [sum] over the channel axis: [0 + c0 + c1 + ...], every
    addition in the dtype of the arrays.  The source transposes its
    arguments so that the channels come first and transposes the sum back;
    the embedding sums along the last axis directly.  With an empty channel
    axis [sum] is the int 0, which has no [.T]; an array without any pixel
    stands for one whose channel axis is not empty. *)
Definition no_channels (a : image) : bool :=
  match a with
  | (p :: _) :: _ => Nat.eqb (length p) 0
  | _ => false
  end.

Definition sum_channels (d : dtype) (a : image) : result grid :=
  if no_channels a then Raise AttributeError
  else Ok (map (map (fun p => fold_left (dtype_add d) p 0)) a).

Definition dual_gradient_energy (d : dtype) (x_0 x_1 y_0 y_1 : image)
  : result grid :=
  sum_channels d
    (elementwise (dtype_add d)
       (square d (elementwise (dtype_sub d) x_0 x_1))
       (square d (elementwise (dtype_sub d) y_0 y_1))).

(** The energy map of an image of dtype [d]. *)
Definition energy_map (d : dtype) (img : image) : result grid :=
  let x_0 := map (roll (-1)) img in
  let x_1 := map (roll 1) img in
  let y_0 := roll (-1) img in
  let y_1 := roll 1 img in
  dual_gradient_energy d x_0 x_1 y_0 y_1.

(** The body of the inner loop of [cumulative_energy], on the pair
    [(paths, path_energies)].  Both tables have int64 cells: the sum is an
    int64 sum, and wraps. *)
Definition cumulative_cell (energy : grid) (i : nat) (st : grid * grid)
    (j : nat) : result (grid * grid) :=
  let '(paths, path_energies) := st in
  let* prev_row := load path_energies (i - 1) in
  let prev_energies :=
    slice prev_row (Z.to_nat (Z.max (Z.of_nat j - 1) 0)) (j + 2) in
  let* least_energy := np_min prev_energies in
  let* e := getitem2 energy i j in
  let* path_energies :=
    setitem2 path_energies i j (int64 (e + least_energy)) in
  let* k := where_first prev_energies least_energy in
  let* paths :=
    setitem2 paths i j
      (int64 (Z.of_nat k - (if Nat.eqb j 0 then 0 else 1))) in
  Ok (paths, path_energies).

Definition cumulative_row (energy : grid) (width : nat) (st : grid * grid)
    (i : nat) : result (grid * grid) :=
  for_each (cumulative_cell energy i) (seq 0 width) st.

Definition cumulative_energy (energy : grid) : result (grid * grid) :=
  let height := height energy in
  let width := width energy in
  let paths := zeros height width in
  let path_energies := zeros height width in
  let* row0 := load energy 0 in
  let* path_energies := setrow path_energies 0 (map int64 row0) in
  let* paths := setrow paths 0 (replicate width nan_int64) in
  for_each (cumulative_row energy width) (seq 1 (height - 1))
    (paths, path_energies).

Definition seam_end (energy_totals : grid) : result Z :=
  let* last_row := load_int energy_totals (-1) in
  let* least := builtin_min last_row in
  list_index last_row least.

(** The body of the loop of [find_seam]; [seam], a list, grows at its end,
    and its columns are indices of the array. *)
Definition find_seam_step (paths : grid) (seam : list Z) (i : nat)
  : result (list Z) :=
  let* cur_x := getitem_int seam (-1) in
  let* row := load paths i in
  let* offset_of_prev_x := load_int row cur_x in
  Ok (seam ++ [cur_x + offset_of_prev_x]).

Definition find_seam (paths : grid) (end_x : Z) : result (list Z) :=
  let height := height paths in
  let* seam :=
    for_each (find_seam_step paths) (rev (seq 1 (height - 1))) [end_x] in
  Ok (rev seam).

Definition remove_seam (img : image) (seam : list Z) : result image :=
  let height := height img in
  comprehension
    (fun row =>
       let* r := getitem img row in
       let* s := getitem seam row in
       np_delete r s)
    (seq 0 height).

(** One turn of the loop of [resize_image]. *)
Definition carve (d : dtype) (img : image) : result image :=
  let* e_map := energy_map d img in
  let* (e_paths, e_totals) := cumulative_energy e_map in
  let* end_x := seam_end e_totals in
  let* seam := find_seam e_paths end_x in
  remove_seam img seam.

(** [range(cropped_pixels)] is empty for a negative count. *)
Definition resize_image (d : dtype) (full_img : image) (cropped_pixels : Z)
  : result image :=
  let img := full_img in
  for_each (fun img _ => carve d img) (seq 0 (Z.to_nat cropped_pixels)) img.

(** ** The buffers *)

Module Store.

(** The image buffers of the heap, by address.  [full_img.copy()] and the
    [np.array([...])] of [remove_seam] allocate a new buffer; [np.roll],
    [np.delete] and the reads of the carver leave the buffer they are given
    as it is.  The variable [img] of [resize_image] holds an address. *)
Definition buffer (st : list image) (l : nat) : image :=
  default [] (st !! l).

Definition alloc (st : list image) (a : image) : list image * nat :=
  (st ++ [a], length st).

(** [img = full_img.copy()]. *)
Definition copy (st : list image) (full_img : nat) : list image * nat :=
  alloc st (buffer st full_img).

(** One turn of the loop: [img] is read, and bound to the new buffer that
    [remove_seam] returns. *)
Definition carve_buffer (d : dtype) (st : list image) (img : nat)
  : list image * result nat :=
  match carve d (buffer st img) with
  | Ok a => let '(st', img') := alloc st a in (st', Ok img')
  | Raise e => (st, Raise e)
  | Undefined => (st, Undefined)
  end.

Fixpoint loop (d : dtype) (turns : list nat) (st : list image) (img : nat)
  : list image * result nat :=
  match turns with
  | [] => (st, Ok img)
  | _ :: turns' =>
      match carve_buffer d st img with
      | (st', Ok img') => loop d turns' st' img'
      | (st', Raise e) => (st', Raise e)
      | (st', Undefined) => (st', Undefined)
      end
  end.

Definition resize_image (d : dtype) (st : list image) (full_img : nat)
    (cropped_pixels : Z) : list image * result nat :=
  let '(st, img) := copy st full_img in
  loop d (seq 0 (Z.to_nat cropped_pixels)) st img.

End Store.

(** ** Shapes and specification predicates *)

(** A [height]-by-[width] array. *)
Definition rect {A} (H W : nat) (a : list (list A)) : Prop :=
  length a = H /\ Forall (fun row => length row = W) a.

(** An image of [H] rows, [W] columns and [C] channels. *)
Definition image_shape (H W C : nat) (img : image) : Prop :=
  rect H W img /\ Forall (Forall (fun p => length p = C)) img.

(** The entry at row [i] and column [j], if there is one. *)
Definition cell {A} (a : list (list A)) (i j : nat) : option A :=
  match a !! i with
  | Some row => row !! j
  | None => None
  end.

(** Column [c] is one of [j-1], [j], [j+1] and lies in [0, W-1]. *)
Definition in_window (W j c : nat) : Prop :=
  ((c + 1 = j \/ c = j \/ c = j + 1) /\ c < W)%nat.

(** [c] is the leftmost column of the window of [j] at which [prev] takes
    its least value [m] over that window. *)
Definition parent_of (W : nat) (prev : list Z) (j c : nat) (m : Z) : Prop :=
  in_window W j c /\
  prev !! c = Some m /\
  (forall c' v, in_window W j c' -> prev !! c' = Some v -> m <= v) /\
  (forall c', in_window W j c' -> prev !! c' = Some m -> (c <= c')%nat).

(** The cell [(i, j)] of the two tables holds what the loop stores: the
    int64 sum of the energy and the least total above, and the offset of
    the column that has it. *)
Definition cell_done (W : nat) (energy paths path_energies : grid)
    (i j : nat) : Prop :=
  exists prev c m e,
    path_energies !! (i - 1)%nat = Some prev /\
    parent_of W prev j c m /\
    cell energy i j = Some e /\
    cell path_energies i j = Some (int64 (e + m)) /\
    cell paths i j = Some (Z.of_nat c - Z.of_nat j).

(** The same with the sum of the integers: what the cell holds when the
    sum did not wrap. *)
Definition cell_exact (W : nat) (energy paths path_energies : grid)
    (i j : nat) : Prop :=
  exists prev c m e,
    path_energies !! (i - 1)%nat = Some prev /\
    parent_of W prev j c m /\
    cell energy i j = Some e /\
    cell path_energies i j = Some (e + m) /\
    cell paths i j = Some (Z.of_nat c - Z.of_nat j).

(** Energies of absolute value at most [B], few enough rows that no total
    leaves the int64 range. *)
Definition no_overflow (H : nat) (energy : grid) (B : Z) : Prop :=
  0 <= B /\
  Z.of_nat H * B < 2 ^ 63 /\
  forall i j e, cell energy i j = Some e -> - B <= e <= B.

(** Every stored offset below row 0 points to a column of the grid. *)
Definition offsets_in_grid (W : nat) (paths : grid) : Prop :=
  forall i j o, (1 <= i)%nat -> cell paths i j = Some o ->
    0 <= Z.of_nat j + o < Z.of_nat W.

(** The offset stored for column [x] of row [i]. *)
Definition offset_at (paths : grid) (i : nat) (x : Z) : Z :=
  match cell paths i (Z.to_nat x) with
  | Some o => o
  | None => 0
  end.

(** The columns that backtracking from column [x] of row [n] visits in the
    rows [n-1], ..., [0]: the invariant of the loop of [find_seam]. *)
Fixpoint backtrack (paths : grid) (n : nat) (x : Z) : list Z :=
  match n with
  | O => []
  | S n' =>
      let x' := x + offset_at paths n x in
      x' :: backtrack paths n' x'
  end.

(** The row that [remove_seam] builds for row [r]. *)
Definition carved_row (img : image) (seam : list Z) (r : nat)
  : list (list Z) :=
  match img !! r, seam !! r with
  | Some row, Some s => take (Z.to_nat s) row ++ drop (S (Z.to_nat s)) row
  | _, _ => []
  end.

(** Sums over the channels. *)
Definition sum_list (l : list Z) : Z := fold_right Z.add 0 l.

(** The sum over the channels of the squared differences of two pixels. *)
Definition squared_difference (p q : pixel) : Z :=
  sum_list (zip_with (fun u v => (u - v) ^ 2) p q).

(** The energy of the pixel at [(r, c)] from its four neighbours, those
    beyond an edge taken from the opposite edge: the sum of the squared
    differences, in the dtype of the image. *)
Definition neighbour_energy (d : dtype) (H W : nat) (img : image)
    (r c : nat) : option Z :=
  match cell img r (Z.to_nat ((Z.of_nat c - 1) mod Z.of_nat W)),
        cell img r (Z.to_nat ((Z.of_nat c + 1) mod Z.of_nat W)),
        cell img (Z.to_nat ((Z.of_nat r - 1) mod Z.of_nat H)) c,
        cell img (Z.to_nat ((Z.of_nat r + 1) mod Z.of_nat H)) c with
  | Some west, Some east, Some north, Some south =>
      Some (wrap d
              (squared_difference west east + squared_difference north south))
  | _, _, _, _ => None
  end.

(** The energy of a seam: the sum of the energies of its pixels, one in
    each row from the top. *)
Definition energy_at (row : list Z) (x : Z) : Z :=
  default 0 (row !! Z.to_nat x).

Definition seam_energy (energy : grid) (seam : list Z) : Z :=
  sum_list (zip_with energy_at energy seam).

(** A connected path of columns of the grid: each in [0, W-1], and at most
    one column away from the one in the row above. *)
Definition connected (W : nat) (seam : list Z) : Prop :=
  Forall (fun x => 0 <= x < Z.of_nat W) seam /\
  forall i a b, seam !! i = Some a -> seam !! S i = Some b ->
    -1 <= b - a <= 1.

(** The image of [H] rows and [W] columns whose pixels all are [p]. *)
Definition uniform (H W : nat) (p : pixel) : image :=
  replicate H (replicate W p).

(** The image with [f] applied to every channel value. *)
Definition pointwise (f : Z -> Z) (img : image) : image :=
  map (map (map f)) img.

(** ** Lemmas on the array primitives *)

(** Case analysis on the integer comparisons of the goal. *)
Ltac zbool :=
  repeat match goal with
    | |- context [?x <=? ?y] => destruct (Z.leb_spec x y)
    | |- context [?x <? ?y] => destruct (Z.ltb_spec x y)
    | |- context [?x =? ?y] => destruct (Z.eqb_spec x y)
    end;
  cbn [andb orb]; try lia.

Section Primitives.

Context {A : Type}.
Implicit Types (a : list A) (i j n : nat).

Lemma getitem_Ok a i x : a !! i = Some x -> getitem a i = Ok x.
Proof. unfold getitem. now intros ->. Qed.

Lemma getitem_lt a i :
  (i < length a)%nat -> exists x, getitem a i = Ok x /\ a !! i = Some x.
Proof.
  intros Hi. destruct (lookup_lt_is_Some_2 a i Hi) as [x Hx].
  exists x. split; [now apply getitem_Ok | exact Hx].
Qed.

Lemma getitem_ge a i : (length a <= i)%nat -> getitem a i = Raise IndexError.
Proof. intros Hi. unfold getitem. now rewrite lookup_ge_None_2. Qed.

Lemma getitem_inv a i x : getitem a i = Ok x -> a !! i = Some x.
Proof. unfold getitem. destruct (a !! i); congruence. Qed.

Lemma getitem_int_nonneg a (k : Z) :
  0 <= k < Z.of_nat (length a) ->
  getitem_int a k = getitem a (Z.to_nat k).
Proof. intros Hk. unfold getitem_int. now zbool. Qed.

Lemma getitem_int_last a x : getitem_int (a ++ [x]) (-1) = Ok x.
Proof.
  unfold getitem_int. rewrite length_app. cbn [length]. zbool.
  apply getitem_Ok.
  replace (Z.to_nat (-1 + Z.of_nat (length a + 1))) with (length a) by lia.
  rewrite lookup_app_r by lia. now rewrite Nat.sub_diag.
Qed.

Lemma getitem_int_empty (k : Z) : getitem_int (@nil A) k = Raise IndexError.
Proof. unfold getitem_int. cbn [length]. now zbool. Qed.

Lemma load_Ok a i x : a !! i = Some x -> load a i = Ok x.
Proof. unfold load. now intros ->. Qed.

Lemma load_lt a i :
  (i < length a)%nat -> exists x, load a i = Ok x /\ a !! i = Some x.
Proof.
  intros Hi. destruct (lookup_lt_is_Some_2 a i Hi) as [x Hx].
  exists x. split; [now apply load_Ok | exact Hx].
Qed.

Lemma load_ge a i : (length a <= i)%nat -> load a i = Undefined.
Proof. intros Hi. unfold load. now rewrite lookup_ge_None_2. Qed.

Lemma load_inv a i x : load a i = Ok x -> a !! i = Some x.
Proof. unfold load. destruct (a !! i); congruence. Qed.

Lemma load_int_nonneg a (k : Z) :
  0 <= k < Z.of_nat (length a) ->
  load_int a k = load a (Z.to_nat k).
Proof. intros Hk. unfold load_int. now zbool. Qed.

Lemma load_int_last a x : load_int (a ++ [x]) (-1) = Ok x.
Proof.
  unfold load_int. rewrite length_app. cbn [length]. zbool.
  apply load_Ok.
  replace (Z.to_nat (-1 + Z.of_nat (length a + 1))) with (length a) by lia.
  rewrite lookup_app_r by lia. now rewrite Nat.sub_diag.
Qed.

Lemma load_int_empty (k : Z) : load_int (@nil A) k = Undefined.
Proof. unfold load_int. cbn [length]. now zbool. Qed.

(** Inside the array compiled code reads what Python reads. *)
Lemma load_int_getitem_int a (k : Z) (x : A) :
  load_int a k = Ok x <-> getitem_int a k = Ok x.
Proof.
  unfold load_int, getitem_int, load, getitem.
  destruct ((0 <=? k) && (k <? Z.of_nat (length a))).
  - destruct (a !! Z.to_nat k); split; congruence.
  - destruct ((- Z.of_nat (length a) <=? k) && (k <? 0)).
    + destruct (a !! Z.to_nat (k + Z.of_nat (length a))); split; congruence.
    + split; discriminate.
Qed.

Lemma lookup_slice a lo hi k :
  slice a lo hi !! k =
  if decide (k < hi - lo)%nat then a !! (lo + k)%nat else None.
Proof. unfold slice. rewrite lookup_take, lookup_drop. reflexivity. Qed.

Lemma length_slice a lo hi :
  length (slice a lo hi) = Nat.min (hi - lo) (length a - lo).
Proof. unfold slice. now rewrite length_take, length_drop. Qed.

End Primitives.

(** ** Wrap-around *)

Lemma bits_pos (d : dtype) : 0 < bits d.
Proof. now destruct d. Qed.

Lemma modulus_pos (d : dtype) : 0 < 2 ^ bits d.
Proof. apply Z.pow_pos_nonneg; [lia | pose proof (bits_pos d); lia]. Qed.

Lemma modulus_half (d : dtype) : 2 ^ bits d = 2 * 2 ^ (bits d - 1).
Proof.
  pose proof (bits_pos d). rewrite <- Z.pow_succ_r by lia.
  f_equal. lia.
Qed.

Lemma half_modulus (d : dtype) : 2 ^ bits d / 2 = 2 ^ (bits d - 1).
Proof.
  rewrite (modulus_half d), Z.mul_comm. apply Z.div_mul. lia.
Qed.

Lemma wrap_mod (d : dtype) (z : Z) :
  wrap d z mod 2 ^ bits d = z mod 2 ^ bits d.
Proof.
  unfold wrap. cbv zeta. destruct (signed d).
  - rewrite Zminus_mod_idemp_l. f_equal. lia.
  - apply Z.mod_mod. pose proof (modulus_pos d). lia.
Qed.

Lemma wrap_congr (d : dtype) (a b : Z) :
  a mod 2 ^ bits d = b mod 2 ^ bits d -> wrap d a = wrap d b.
Proof.
  intros Hab. unfold wrap. cbv zeta. destruct (signed d).
  - f_equal. rewrite (Zplus_mod a), (Zplus_mod b), Hab. reflexivity.
  - exact Hab.
Qed.

Lemma wrap_in_dtype (d : dtype) (z : Z) : in_dtype d (wrap d z).
Proof.
  pose proof (modulus_pos d) as Hm. pose proof (modulus_half d) as Hh.
  unfold in_dtype, dtype_min, dtype_max, wrap. cbv zeta.
  rewrite half_modulus. destruct (signed d).
  - pose proof (Z.mod_pos_bound (z + 2 ^ (bits d - 1)) _ Hm). lia.
  - pose proof (Z.mod_pos_bound z _ Hm). lia.
Qed.

Lemma wrap_small (d : dtype) (z : Z) : in_dtype d z -> wrap d z = z.
Proof.
  pose proof (modulus_pos d) as Hm. pose proof (modulus_half d) as Hh.
  unfold in_dtype, dtype_min, dtype_max, wrap. cbv zeta.
  rewrite half_modulus. destruct (signed d); intros Hz.
  - rewrite Z.mod_small by lia. lia.
  - apply Z.mod_small. lia.
Qed.

Lemma wrap_wrap (d : dtype) (z : Z) : wrap d (wrap d z) = wrap d z.
Proof. apply wrap_small, wrap_in_dtype. Qed.

Lemma wrap_0 (d : dtype) : wrap d 0 = 0.
Proof.
  apply wrap_small. pose proof (modulus_pos d) as Hm.
  pose proof (modulus_half d) as Hh.
  unfold in_dtype, dtype_min, dtype_max. destruct (signed d); lia.
Qed.

Lemma int64_small (z : Z) : - 2 ^ 63 <= z < 2 ^ 63 -> int64 z = z.
Proof.
  intros Hz. apply wrap_small.
  unfold in_dtype, dtype_min, dtype_max. cbn [signed bits].
  change (64 - 1) with 63. lia.
Qed.

Lemma map_int64_small (l : list Z) :
  Forall (fun z => - 2 ^ 63 <= z < 2 ^ 63) l -> map int64 l = l.
Proof.
  induction 1 as [| z l Hz _ IH]; cbn [map]; [reflexivity |].
  now rewrite int64_small, IH.
Qed.

(** Sums, differences and squares taken in the dtype are congruent to
    those of the integers. *)
Lemma dtype_add_mod (d : dtype) (u v u' v' : Z) :
  u mod 2 ^ bits d = u' mod 2 ^ bits d ->
  v mod 2 ^ bits d = v' mod 2 ^ bits d ->
  dtype_add d u v mod 2 ^ bits d = (u' + v') mod 2 ^ bits d.
Proof.
  intros Hu Hv. unfold dtype_add. rewrite wrap_mod.
  now rewrite (Zplus_mod u), Hu, Hv, <- Zplus_mod.
Qed.

Lemma dtype_sub_mod (d : dtype) (u v : Z) :
  dtype_sub d u v mod 2 ^ bits d = (u - v) mod 2 ^ bits d.
Proof. apply wrap_mod. Qed.

Lemma dtype_square_mod (d : dtype) (u u' : Z) :
  u mod 2 ^ bits d = u' mod 2 ^ bits d ->
  dtype_square d u mod 2 ^ bits d = (u' ^ 2) mod 2 ^ bits d.
Proof.
  intros Hu. unfold dtype_square. rewrite wrap_mod.
  rewrite !Z.pow_2_r. now rewrite (Zmult_mod u), Hu, <- Zmult_mod.
Qed.

Lemma bind_Ok {A B} (r : result A) (k : A -> result B) x :
  r = Ok x -> bind r k = k x.
Proof. now intros ->. Qed.

Lemma bind_inv {A B} (r : result A) (k : A -> result B) y :
  bind r k = Ok y -> exists x, r = Ok x /\ k x = Ok y.
Proof. destruct r as [x | e |]; cbn; [eauto | discriminate ..]. Qed.

(** The least element. *)
Lemma fold_min_le (a : list Z) (x : Z) :
  fold_left Z.min a x <= x /\ (forall v, v ∈ a -> fold_left Z.min a x <= v).
Proof.
  revert x. induction a as [| y a IH]; intros x; cbn.
  - split; [lia | intros v Hv; inversion Hv].
  - destruct (IH (Z.min x y)) as [H1 H2]. split; [lia |].
    intros v Hv. apply elem_of_cons in Hv as [-> | Hv]; [lia | now apply H2].
Qed.

Lemma fold_min_elem (a : list Z) (x : Z) :
  fold_left Z.min a x = x \/ fold_left Z.min a x ∈ a.
Proof.
  revert x. induction a as [| y a IH]; intros x; cbn; [now left |].
  destruct (IH (Z.min x y)) as [H | H].
  - rewrite H. destruct (Z.min_spec x y) as [[_ ->] | [_ ->]];
      [now left | right; apply elem_of_cons; now left].
  - right. apply elem_of_cons. now right.
Qed.

Lemma np_min_spec (a : list Z) :
  a <> [] ->
  exists m, np_min a = Ok m /\ m ∈ a /\ (forall v, v ∈ a -> m <= v).
Proof.
  destruct a as [| x a]; [congruence | intros _].
  exists (fold_left Z.min a x). cbn. split; [reflexivity |].
  destruct (fold_min_le a x) as [H1 H2]. split.
  - destruct (fold_min_elem a x) as [-> | H];
      apply elem_of_cons; [now left | now right].
  - intros v Hv.
    apply elem_of_cons in Hv as [-> | Hv]; [exact H1 | now apply H2].
Qed.

Lemma np_min_empty : np_min [] = Raise ValueError.
Proof. reflexivity. Qed.

Lemma builtin_min_spec (a : list Z) :
  a <> [] ->
  exists m, builtin_min a = Ok m /\ m ∈ a /\ (forall v, v ∈ a -> m <= v).
Proof.
  intros Hne. destruct (np_min_spec a Hne) as (m & Hmin & Hm).
  exists m. split; [| exact Hm].
  destruct a; [congruence | exact Hmin].
Qed.

Lemma builtin_min_empty : builtin_min [] = Raise StopIteration.
Proof. reflexivity. Qed.

(** The first position of a value. *)
Lemma first_index_Some (a : list Z) (v : Z) (k : nat) :
  first_index a v = Some k ->
  a !! k = Some v /\ (forall k', a !! k' = Some v -> (k <= k')%nat).
Proof.
  revert k. induction a as [| x a IH]; intros k; cbn; [discriminate |].
  destruct (x =? v) eqn:E.
  - intros [= <-]. apply Z.eqb_eq in E as ->. split; [reflexivity | lia].
  - destruct (first_index a v) as [k0 |] eqn:E0; cbn; [| discriminate].
    intros [= <-]. destruct (IH k0 eq_refl) as [H1 H2]. split; [exact H1 |].
    intros [| k'] Hk'; cbn in Hk'.
    + injection Hk' as ->. rewrite Z.eqb_refl in E. discriminate.
    + specialize (H2 k' Hk'). lia.
Qed.

Lemma first_index_elem (a : list Z) (v : Z) :
  v ∈ a -> exists k, first_index a v = Some k.
Proof.
  induction a as [| x a IH]; intros Hv; [inversion Hv |]. cbn.
  destruct (x =? v) eqn:E; [eauto |].
  apply elem_of_cons in Hv as [-> | Hv].
  - rewrite Z.eqb_refl in E. discriminate.
  - destruct (IH Hv) as [k ->]. cbn. eauto.
Qed.

(** ** The cumulative energy table *)

(** The slice [prev[max(j-1, 0) : j+2]] is the window of column [j]. *)
Lemma window_lookup (W : nat) (prev : list Z) (j c : nat) (v : Z) :
  length prev = W ->
  let lo := Z.to_nat (Z.max (Z.of_nat j - 1) 0) in
  (in_window W j c /\ prev !! c = Some v) <->
  (exists k, c = (lo + k)%nat /\ slice prev lo (j + 2) !! k = Some v).
Proof.
  intros HW lo. assert (Hlo : lo = (j - 1)%nat) by lia. split.
  - intros [[Hc HcW] Hv]. exists (c - lo)%nat. split; [lia |].
    rewrite lookup_slice. destruct (decide (c - lo < j + 2 - lo)%nat); [| lia].
    now replace (lo + (c - lo))%nat with c by lia.
  - intros (k & -> & Hk). rewrite lookup_slice in Hk.
    destruct (decide (k < j + 2 - lo)%nat); [| discriminate].
    split; [| exact Hk]. apply lookup_lt_Some in Hk. unfold in_window. lia.
Qed.

(** What one turn of the inner loop computes from the previous row. *)
Lemma window_min (W : nat) (prev : list Z) (j : nat) :
  length prev = W -> (j < W)%nat ->
  let lo := Z.to_nat (Z.max (Z.of_nat j - 1) 0) in
  let prev_energies := slice prev lo (j + 2) in
  exists m k,
    np_min prev_energies = Ok m /\
    where_first prev_energies m = Ok k /\
    parent_of W prev j (lo + k) m /\
    Z.of_nat k - (if Nat.eqb j 0 then 0 else 1)
    = Z.of_nat (lo + k) - Z.of_nat j.
Proof.
  intros HW Hj lo prev_energies.
  assert (Hlo : lo = (j - 1)%nat) by lia.
  destruct (lookup_lt_is_Some_2 prev j) as [vj Hvj]; [lia |].
  assert (Hne : prev_energies <> []).
  { intros E.
    assert (Hin : in_window W j j /\ prev !! j = Some vj)
      by (unfold in_window; split; [lia | exact Hvj]).
    apply (window_lookup W prev j j vj HW) in Hin as (k & _ & Hk).
    fold lo in Hk. fold prev_energies in Hk. rewrite E in Hk. discriminate. }
  destruct (np_min_spec prev_energies Hne) as (m & Hmin & Hm & Hleast).
  destruct (first_index_elem prev_energies m Hm) as [k Hk].
  destruct (first_index_Some prev_energies m k Hk) as [Hkm Hfirst].
  exists m, k. split; [exact Hmin |]. split.
  { unfold where_first. now rewrite Hk. }
  assert (Hwin : in_window W j (lo + k) /\ prev !! (lo + k)%nat = Some m).
  { apply (window_lookup W prev j (lo + k) m HW). exists k. now split. }
  destruct Hwin as [Hwin Hprev]. split.
  - split; [exact Hwin |]. split; [exact Hprev |]. split.
    + intros c' v Hc' Hv.
      destruct (proj1 (window_lookup W prev j c' v HW) (conj Hc' Hv))
        as (k' & _ & Hk').
      apply Hleast. apply list_elem_of_lookup. now exists k'.
    + intros c' Hc' Hv.
      destruct (proj1 (window_lookup W prev j c' m HW) (conj Hc' Hv))
        as (k' & -> & Hk').
      specialize (Hfirst k' Hk'). fold lo. lia.
  - destruct j as [| j]; cbn [Nat.eqb]; lia.
Qed.

(** Shapes of the arrays the function builds. *)
Lemma rect_lookup {A} (H W : nat) (a : list (list A)) i row :
  rect H W a -> a !! i = Some row -> length row = W.
Proof. intros [_ Hall] Hi. exact (Forall_lookup_1 _ _ _ _ Hall Hi). Qed.

Lemma rect_row {A} (H W : nat) (a : list (list A)) i :
  rect H W a -> (i < H)%nat -> exists row, a !! i = Some row /\ length row = W.
Proof.
  intros Ha Hi. destruct (lookup_lt_is_Some_2 a i) as [row Hrow].
  { destruct Ha as [-> _]. exact Hi. }
  exists row. split; [exact Hrow | exact (rect_lookup H W a i row Ha Hrow)].
Qed.

Lemma rect_cell {A} (H W : nat) (a : list (list A)) i j :
  rect H W a -> (i < H)%nat -> (j < W)%nat -> exists v, cell a i j = Some v.
Proof.
  intros Ha Hi Hj. destruct (rect_row H W a i Ha Hi) as (row & Hrow & Hlen).
  unfold cell. rewrite Hrow. apply lookup_lt_is_Some_2. lia.
Qed.

Lemma cell_Some_lt {A} (H W : nat) (a : list (list A)) i j v :
  rect H W a -> cell a i j = Some v -> (i < H)%nat /\ (j < W)%nat.
Proof.
  intros Ha Hc. unfold cell in Hc.
  destruct (a !! i) as [row |] eqn:Hrow; [| discriminate].
  pose proof (rect_lookup H W a i row Ha Hrow) as Hlen.
  apply lookup_lt_Some in Hrow, Hc. destruct Ha as [<- _]. lia.
Qed.

Lemma rect_width {A} (H W : nat) (a : list (list A)) :
  rect H W a -> (1 <= H)%nat -> width a = W.
Proof.
  intros [Hlen Hall] HH. destruct a as [| row a]; cbn in *; [lia |].
  now inversion Hall.
Qed.

Lemma rect_zeros (H W : nat) : rect H W (zeros H W).
Proof.
  split; unfold zeros; [apply length_replicate |].
  apply Forall_replicate, length_replicate.
Qed.

Lemma rect_insert {A} (H W : nat) (a : list (list A)) i row :
  rect H W a -> length row = W -> rect H W (<[i := row]> a).
Proof.
  intros [Hlen Hall] Hrow. split; [now rewrite length_insert |].
  now apply Forall_insert.
Qed.

(** [a[i][j] = v] on an array that has the cell. *)
Lemma setitem2_ok (H W : nat) (a : grid) i j v :
  rect H W a -> (i < H)%nat -> (j < W)%nat ->
  exists row a',
    a !! i = Some row /\ a' = <[i := <[j := v]> row]> a /\
    setitem2 a i j v = Ok a' /\ rect H W a' /\
    cell a' i j = Some v /\
    (forall i', i' <> i -> a' !! i' = a !! i') /\
    (forall j', j' <> j -> cell a' i j' = cell a i j').
Proof.
  intros Ha Hi Hj. destruct (rect_row H W a i Ha Hi) as (row & Hrow & Hlen).
  destruct (lookup_lt_is_Some_2 row j) as [x Hx]; [lia |].
  assert (HiL : (i < length a)%nat) by (destruct Ha as [-> _]; exact Hi).
  exists row, (<[i := <[j := v]> row]> a).
  split; [exact Hrow |]. split; [reflexivity |]. split.
  { unfold setitem2. rewrite (load_Ok _ _ _ Hrow). cbn.
    now rewrite (load_Ok _ _ _ Hx). }
  split. { apply rect_insert; [exact Ha | now rewrite length_insert]. }
  split.
  { unfold cell. rewrite list_lookup_insert_eq by exact HiL.
    apply list_lookup_insert_eq. lia. }
  split.
  { intros i' Hi'. now apply list_lookup_insert_ne. }
  intros j' Hj'. unfold cell. rewrite list_lookup_insert_eq by exact HiL.
  rewrite Hrow. now apply list_lookup_insert_ne.
Qed.

Lemma cell_done_ext W energy P E P' E' i j :
  P' !! i = P !! i -> E' !! i = E !! i ->
  E' !! (i - 1)%nat = E !! (i - 1)%nat ->
  cell_done W energy P E i j -> cell_done W energy P' E' i j.
Proof.
  intros HP HE HE1 (prev & c & m & e & H1 & H2 & H3 & H4 & H5).
  exists prev, c, m, e. unfold cell in *. rewrite HP, HE, HE1. tauto.
Qed.

Lemma cumulative_cell_ok H W energy i j P E :
  rect H W energy -> rect H W P -> rect H W E ->
  (1 <= i < H)%nat -> (j < W)%nat ->
  exists P' E',
    cumulative_cell energy i (P, E) j = Ok (P', E') /\
    rect H W P' /\ rect H W E' /\
    (forall i', i' <> i -> P' !! i' = P !! i' /\ E' !! i' = E !! i') /\
    (forall j', j' <> j ->
       cell P' i j' = cell P i j' /\ cell E' i j' = cell E i j') /\
    cell_done W energy P' E' i j.
Proof.
  intros Hen HP HE Hi Hj.
  destruct (rect_row H W E (i - 1)) as (prev & Hprev & Hlen);
    [exact HE | lia |].
  destruct (window_min W prev j Hlen Hj) as (m & k & Hmin & Hk & Hpar & Hoff).
  destruct (rect_row H W energy i) as (erow & Herow & Helen);
    [exact Hen | lia |].
  destruct (lookup_lt_is_Some_2 erow j) as [e He]; [lia |].
  destruct (setitem2_ok H W E i j (int64 (e + m)) HE) as
    (Erow & E' & HErow & -> & HsetE & HE' & HEc & HEo & HEj);
    [lia | exact Hj |].
  set (E' := <[i := <[j := int64 (e + m)]> Erow]> E) in *.
  assert (Hsmall : int64 (Z.of_nat k - (if Nat.eqb j 0 then 0 else 1))
                   = Z.of_nat k - (if Nat.eqb j 0 then 0 else 1)).
  { apply int64_small. rewrite Hoff.
    destruct Hpar as [[Hc HcW] _]. lia. }
  destruct (setitem2_ok H W P i j
              (int64 (Z.of_nat k - (if Nat.eqb j 0 then 0 else 1))) HP) as
    (Prow & P' & HProw & -> & HsetP & HP' & HPc & HPo & HPj);
    [lia | exact Hj |].
  set (P' := <[i := <[j := _]> Prow]> P) in *.
  exists P', E'. split.
  { unfold cumulative_cell. rewrite (load_Ok _ _ _ Hprev). cbn [bind].
    rewrite Hmin. cbn [bind]. unfold getitem2.
    rewrite (load_Ok _ _ _ Herow). cbn [bind].
    rewrite (load_Ok _ _ _ He). cbn [bind].
    rewrite HsetE. cbn [bind]. rewrite Hk. cbn [bind].
    rewrite HsetP. reflexivity. }
  split; [exact HP' |]. split; [exact HE' |]. split.
  { intros i' Hi'. split; [now apply HPo | now apply HEo]. }
  split.
  { intros j' Hj'. split; [now apply HPj | now apply HEj]. }
  exists prev, (Z.to_nat (Z.max (Z.of_nat j - 1) 0) + k)%nat, m, e.
  split. { rewrite HEo by lia. exact Hprev. }
  split; [exact Hpar |]. split.
  { unfold cell. now rewrite Herow. }
  split; [exact HEc |]. rewrite <- Hoff, <- Hsmall. exact HPc.
Qed.

Lemma cumulative_row_from H W energy i n : forall j0 P E,
  rect H W energy -> rect H W P -> rect H W E ->
  (1 <= i < H)%nat -> (j0 + n = W)%nat ->
  exists P' E',
    for_each (cumulative_cell energy i) (seq j0 n) (P, E) = Ok (P', E') /\
    rect H W P' /\ rect H W E' /\
    (forall i', i' <> i -> P' !! i' = P !! i' /\ E' !! i' = E !! i') /\
    (forall j, (j < j0)%nat ->
       cell P' i j = cell P i j /\ cell E' i j = cell E i j) /\
    (forall j, (j0 <= j < j0 + n)%nat -> cell_done W energy P' E' i j).
Proof.
  induction n as [| n IH]; intros j0 P E Hen HP HE Hi Hn.
  - exists P, E. cbn. split; [reflexivity |]. split; [exact HP |].
    split; [exact HE |]. split; [tauto |]. split; [tauto |].
    intros j Hj. lia.
  - destruct (cumulative_cell_ok H W energy i j0 P E Hen HP HE Hi)
      as (P1 & E1 & Hstep & HP1 & HE1 & Hrows1 & Hcols1 & Hdone1); [lia |].
    destruct (IH (S j0) P1 E1 Hen HP1 HE1 Hi) as
      (P' & E' & Hloop & HP' & HE' & Hrows & Hcols & Hdone); [lia |].
    exists P', E'. split.
    { cbn [seq for_each]. rewrite Hstep. exact Hloop. }
    split; [exact HP' |]. split; [exact HE' |]. split.
    { intros i' Hi'. destruct (Hrows i' Hi') as [-> ->]. now apply Hrows1. }
    split.
    { intros j Hj. destruct (Hcols j) as [-> ->]; [lia |].
      apply Hcols1. lia. }
    intros j Hj. destruct (decide (j = j0)) as [-> | Hne].
    + destruct Hdone1 as (prev & c & m & e & H1 & H2 & H3 & H4 & H5).
      exists prev, c, m, e.
      destruct (Hrows (i - 1)%nat) as [_ ->]; [lia |].
      destruct (Hcols j0) as [-> ->]; [lia |]. tauto.
    + apply Hdone. lia.
Qed.

Lemma cumulative_rows_from H W energy n : forall i0 P E,
  rect H W energy -> rect H W P -> rect H W E ->
  (1 <= i0)%nat -> (i0 + n = H)%nat ->
  exists P' E',
    for_each (cumulative_row energy W) (seq i0 n) (P, E) = Ok (P', E') /\
    rect H W P' /\ rect H W E' /\
    (forall i, (i < i0)%nat -> P' !! i = P !! i /\ E' !! i = E !! i) /\
    (forall i j, (i0 <= i < i0 + n)%nat -> (j < W)%nat ->
       cell_done W energy P' E' i j).
Proof.
  induction n as [| n IH]; intros i0 P E Hen HP HE Hi Hn.
  - exists P, E. cbn. split; [reflexivity |]. split; [exact HP |].
    split; [exact HE |]. split; [tauto |].
    intros i j Hi'. lia.
  - destruct (cumulative_row_from H W energy i0 W 0 P E Hen HP HE)
      as (P1 & E1 & Hrow & HP1 & HE1 & Hrows1 & _ & Hdone1); [lia | lia |].
    destruct (IH (S i0) P1 E1 Hen HP1 HE1) as
      (P' & E' & Hloop & HP' & HE' & Hrows & Hdone); [lia | lia |].
    exists P', E'. split.
    { cbn [seq for_each]. unfold cumulative_row at 1. rewrite Hrow.
      exact Hloop. }
    split; [exact HP' |]. split; [exact HE' |]. split.
    { intros i Hlt. destruct (Hrows i) as [-> ->]; [lia |].
      apply Hrows1. lia. }
    intros i j Hi' Hj. destruct (decide (i = i0)) as [-> | Hne].
    + apply (cell_done_ext W energy P1 E1).
      * apply Hrows. lia.
      * apply Hrows. lia.
      * apply Hrows. lia.
      * apply Hdone1. lia.
    + apply Hdone; lia.
Qed.

(** [cumulative_energy] returns, and every cell below row 0 is done. *)
Lemma cumulative_energy_tables (H W : nat) (energy : grid) :
  (1 <= H)%nat -> rect H W energy ->
  exists paths path_energies,
    cumulative_energy energy = Ok (paths, path_energies) /\
    rect H W paths /\ rect H W path_energies /\
    path_energies !! 0%nat = map int64 <$> energy !! 0%nat /\
    paths !! 0%nat = Some (replicate W nan_int64) /\
    (forall i j, (1 <= i < H)%nat -> (j < W)%nat ->
       cell_done W energy paths path_energies i j).
Proof.
  intros HH Hen.
  destruct (rect_row H W energy 0 Hen) as (row0 & Hrow0 & Hlen0); [lia |].
  pose proof (rect_width H W energy Hen HH) as Hw.
  assert (HE0 : rect H W (<[0%nat := map int64 row0]> (zeros H W))).
  { apply rect_insert; [apply rect_zeros |].
    now rewrite length_map. }
  assert (HP0 : rect H W (<[0%nat := replicate W nan_int64]> (zeros H W)))
    by (apply rect_insert; [apply rect_zeros | apply length_replicate]).
  destruct (cumulative_rows_from H W energy (H - 1) 1 _ _ Hen HP0 HE0)
    as (P & E & Hloop & HP & HE & Hrows & Hdone); [lia | lia |].
  exists P, E. split.
  { unfold cumulative_energy, height. rewrite Hw.
    rewrite (load_Ok _ _ _ Hrow0). cbn [bind].
    destruct Hen as [-> _]. unfold setrow.
    destruct (rect_row H W (zeros H W) 0 (rect_zeros H W)) as (z & Hz & _);
      [lia |].
    rewrite (load_Ok _ _ _ Hz). cbn [bind]. exact Hloop. }
  split; [exact HP |]. split; [exact HE |].
  assert (H0 : (0 < length (zeros H W))%nat).
  { unfold zeros. rewrite length_replicate. lia. }
  split.
  { destruct (Hrows 0%nat) as [_ ->]; [lia |].
    rewrite Hrow0. now apply list_lookup_insert_eq. }
  split.
  { destruct (Hrows 0%nat) as [-> _]; [lia |].
    now apply list_lookup_insert_eq. }
  intros i j Hi Hj. apply Hdone; lia.
Qed.

(** Without overflow the cells hold the sums of the integers: in row [i]
    the totals have absolute value at most [(i + 1) * B]. *)
Lemma cumulative_energy_exact (H W : nat) (energy paths pe : grid) (B : Z) :
  (1 <= H)%nat -> rect H W energy -> no_overflow H energy B ->
  cumulative_energy energy = Ok (paths, pe) ->
  rect H W paths /\ rect H W pe /\
  pe !! 0%nat = energy !! 0%nat /\
  (forall i j, (1 <= i < H)%nat -> (j < W)%nat ->
     cell_exact W energy paths pe i j) /\
  (forall i j v, cell pe i j = Some v ->
     - ((Z.of_nat i + 1) * B) <= v <= (Z.of_nat i + 1) * B).
Proof.
  intros HH Hen (HB0 & HHB & HB) Hrun.
  destruct (cumulative_energy_tables H W energy HH Hen)
    as (P & E & Hrun' & HP & HE & Hrow0 & _ & Hdone).
  rewrite Hrun in Hrun'. injection Hrun' as <- <-.
  assert (HBH : B <= Z.of_nat H * B) by nia.
  assert (Hrow0' : pe !! 0%nat = energy !! 0%nat).
  { rewrite Hrow0. destruct (energy !! 0%nat) as [row0 |] eqn:E0;
      [| reflexivity].
    cbn. f_equal. apply map_int64_small, Forall_lookup_2.
    intros j e He.
    assert (Hcell : cell energy 0 j = Some e)
      by (unfold cell; now rewrite E0).
    specialize (HB 0%nat j e Hcell). lia. }
  assert (Hbound : forall i j v, cell pe i j = Some v ->
            - ((Z.of_nat i + 1) * B) <= v <= (Z.of_nat i + 1) * B).
  { induction i as [| i IH]; intros j v Hv.
    - assert (Hcell : cell energy 0 j = Some v)
        by (unfold cell in *; now rewrite <- Hrow0').
      specialize (HB 0%nat j v Hcell). lia.
    - destruct (cell_Some_lt H W pe (S i) j v HE Hv) as [Hi Hj].
      destruct (Hdone (S i) j ltac:(lia) Hj)
        as (prev & c & m & e & Hprev & (_ & Hm & _) & He & Hsum & _).
      rewrite Hv in Hsum. injection Hsum as ->.
      replace (S i - 1)%nat with i in Hprev by lia.
      assert (Hcell : cell pe i c = Some m)
        by (unfold cell; now rewrite Hprev).
      specialize (IH c m Hcell). specialize (HB (S i) j e He).
      assert (Hle : (Z.of_nat i + 2) * B <= Z.of_nat H * B)
        by (apply Z.mul_le_mono_nonneg_r; lia).
      rewrite int64_small by lia. lia. }
  split; [exact HP |]. split; [exact HE |]. split; [exact Hrow0' |].
  split; [| exact Hbound].
  intros i j Hi Hj.
  destruct (Hdone i j Hi Hj)
    as (prev & c & m & e & Hprev & Hpar & He & Hsum & Hoff).
  exists prev, c, m, e. split; [exact Hprev |]. split; [exact Hpar |].
  split; [exact He |]. split; [| exact Hoff].
  rewrite Hsum. f_equal. apply int64_small.
  assert (Hcell : cell pe (i - 1) c = Some m).
  { unfold cell. rewrite Hprev. apply Hpar. }
  specialize (Hbound (i - 1)%nat c m Hcell). specialize (HB i j e He).
  assert (Hle : (Z.of_nat (i - 1) + 2) * B <= Z.of_nat H * B)
    by (apply Z.mul_le_mono_nonneg_r; lia).
  lia.
Qed.

Lemma rect_concrete {A} (H W : nat) (a : list (list A)) :
  length a = H -> forallb (fun row => Nat.eqb (length row) W) a = true ->
  rect H W a.
Proof.
  intros Hlen Hall. split; [exact Hlen |].
  apply Forall_forall. intros row Hrow.
  apply list_elem_of_In in Hrow.
  rewrite forallb_forall in Hall. now apply Nat.eqb_eq, Hall.
Qed.

(** X1.  The cumulative energies stay between 0 and [(i + 1) * B] in row [i]
    when the energies lie between 0 and [B] and [H * B < 2 ^ 63], so that
    no int64 cell of [path_energies] wraps around: 8-bit energies and any
    height below [2 ^ 55] satisfy it. *)
Lemma cumulative_energy_bounded (H W : nat) (energy paths pe : grid) (B : Z) :
  (1 <= H)%nat -> rect H W energy ->
  (forall i j e, cell energy i j = Some e -> 0 <= e <= B) ->
  Z.of_nat H * B < 2 ^ 63 ->
  cumulative_energy energy = Ok (paths, pe) ->
  forall i j v, cell pe i j = Some v -> 0 <= v <= (Z.of_nat i + 1) * B.
Proof.
  intros HH Hen HB HHB Hrun i0 j0 v0 Hv0.
  assert (HB0 : 0 <= B).
  { destruct (cumulative_energy_tables H W energy HH Hen)
      as (P & E & Hrun' & _ & HE & _).
    rewrite Hrun in Hrun'. injection Hrun' as <- <-.
    destruct (cell_Some_lt H W pe i0 j0 v0 HE Hv0) as [_ Hj0].
    destruct (rect_cell H W energy 0 j0 Hen) as [e He]; [lia | exact Hj0 |].
    specialize (HB 0%nat j0 e He). lia. }
  assert (Hno : no_overflow H energy B).
  { split; [exact HB0 |]. split; [exact HHB |].
    intros i j e He. specialize (HB i j e He). lia. }
  destruct (cumulative_energy_exact H W energy paths pe B HH Hen Hno Hrun)
    as (_ & HE & Hrow0 & Hdone & _).
  revert j0 v0 Hv0.
  induction i0 as [| i IH]; intros j v Hv.
  - assert (Hcell : cell energy 0 j = Some v)
      by (unfold cell in *; now rewrite <- Hrow0).
    specialize (HB 0%nat j v Hcell). lia.
  - destruct (cell_Some_lt H W pe (S i) j v HE Hv) as [Hi Hj].
    destruct (Hdone (S i) j ltac:(lia) Hj)
      as (prev & c & m & e & Hprev & (_ & Hm & _) & He & Hsum & _).
    rewrite Hv in Hsum. injection Hsum as ->.
    replace (S i - 1)%nat with i in Hprev by lia.
    assert (Hcell : cell pe i c = Some m)
      by (unfold cell; now rewrite Hprev).
    specialize (IH c m Hcell). specialize (HB (S i) j e He). nia.
Qed.

(** The witness of the bound on the cumulative energies. *)
Lemma cumulative_energy_bounded_witness : 0 <= 60 <= (Z.of_nat 2 + 1) * 40.
Proof.
  apply (cumulative_energy_bounded 3 3
           [[10; 13; 10]; [37; 40; 37]; [10; 13; 10]]
           [[nan_int64; nan_int64; nan_int64]; [0; -1; 0]; [0; -1; 0]]
           [[10; 13; 10]; [47; 50; 47]; [57; 60; 57]] 40) with (j := 1%nat).
  - lia.
  - apply rect_concrete; reflexivity.
  - intros [| [| [| i]]] [| [| [| j]]] e He; cbn in He; try discriminate;
      injection He as <-; lia.
  - reflexivity.
  - reflexivity.
  - reflexivity.
Defined.

(** C1.  For an energy grid of height [H >= 1] and width [W >= 1],
    [cumulative_energy] returns the offset grid [paths] and the cumulative
    table [path_energies], both [H] by [W]; row 0 of [path_energies] is
    row 0 of the energy grid stored in int64 cells; and for every row [i]
    in [1, H-1] and column [j] in [0, W-1], with [m] the least value of
    row [i-1] of [path_energies] over the columns [j-1], [j], [j+1] that
    lie in [0, W-1], and [c] the leftmost such column that attains it,
    [path_energies[i][j]] is the int64 sum of [energy[i][j]] and [m], that
    is [energy[i][j] + m] reduced modulo [2 ^ 64] into the int64 range,
    which is [energy[i][j] + m] itself whenever that lies in the range,
    and [paths[i][j] = c - j]. *)
Theorem cumulative_energy_recurrence (H W : nat) (energy : grid) :
  (1 <= H)%nat -> (1 <= W)%nat -> rect H W energy ->
  exists paths path_energies,
    cumulative_energy energy = Ok (paths, path_energies) /\
    rect H W paths /\ rect H W path_energies /\
    path_energies !! 0%nat = map int64 <$> energy !! 0%nat /\
    (forall row0, energy !! 0%nat = Some row0 ->
       Forall (fun e => - 2 ^ 63 <= e < 2 ^ 63) row0 ->
       path_energies !! 0%nat = Some row0) /\
    forall i j, (1 <= i < H)%nat -> (j < W)%nat ->
      exists prev c m e,
        path_energies !! (i - 1)%nat = Some prev /\
        in_window W j c /\
        prev !! c = Some m /\
        (forall c' v, in_window W j c' -> prev !! c' = Some v -> m <= v) /\
        (forall c', in_window W j c' -> prev !! c' = Some m -> (c <= c')%nat) /\
        cell energy i j = Some e /\
        cell path_energies i j = Some (int64 (e + m)) /\
        (- 2 ^ 63 <= e + m < 2 ^ 63 ->
         cell path_energies i j = Some (e + m)) /\
        cell paths i j = Some (Z.of_nat c - Z.of_nat j).
Proof.
  intros HH _ Hen.
  destruct (cumulative_energy_tables H W energy HH Hen)
    as (P & E & Hrun & HP & HE & Hrow0 & _ & Hdone).
  exists P, E. split; [exact Hrun |]. split; [exact HP |].
  split; [exact HE |]. split; [exact Hrow0 |]. split.
  { intros row0 E0 Hsmall. rewrite Hrow0, E0. cbn. f_equal.
    now apply map_int64_small. }
  intros i j Hi Hj.
  destruct (Hdone i j Hi Hj)
    as (prev & c & m & e & H1 & (H2 & H3 & H4 & H5) & H6 & H7 & H8).
  exists prev, c, m, e.
  split; [exact H1 |]. split; [exact H2 |]. split; [exact H3 |].
  split; [exact H4 |]. split; [exact H5 |]. split; [exact H6 |].
  split; [exact H7 |]. split; [| exact H8].
  intros Hsmall. rewrite H7. f_equal. now apply int64_small.
Qed.

Lemma cumulative_energy_recurrence_witness :
  exists paths path_energies,
    cumulative_energy [[10; 13; 10]; [37; 40; 37]; [10; 13; 10]]
    = Ok (paths, path_energies) /\
    rect 3 3 paths /\ rect 3 3 path_energies /\
    path_energies !! 0%nat = Some [10; 13; 10].
Proof.
  destruct (cumulative_energy_recurrence 3 3
              [[10; 13; 10]; [37; 40; 37]; [10; 13; 10]])
    as (P & E & H1 & H2 & H3 & H4 & _).
  - lia.
  - lia.
  - apply rect_concrete; reflexivity.
  - exists P, E. auto.
Defined.

(** The sum wraps: with the three energies [2 ^ 62] in one column the cell
    of row 1 holds [- 2 ^ 63], not [2 ^ 62 + 2 ^ 62], and the recurrence
    over the integers fails there. *)
Lemma cumulative_energy_wraps :
  exists paths path_energies,
    cumulative_energy [[2 ^ 62]; [2 ^ 62]; [2 ^ 62]]
    = Ok (paths, path_energies) /\
    path_energies = [[2 ^ 62]; [- 2 ^ 63]; [- 2 ^ 62]] /\
    ~ cell_exact 1 [[2 ^ 62]; [2 ^ 62]; [2 ^ 62]] paths path_energies 1 0.
Proof.
  eexists _, _. split; [vm_compute; reflexivity |].
  split; [reflexivity |].
  intros (prev & c & m & e & Hprev & (Hwin & Hm & _) & He & Hsum & _).
  injection Hprev as <-. cbn in He. injection He as <-.
  destruct c as [| c]; [| destruct Hwin as [_ Hc]; lia].
  cbn in Hm. injection Hm as <-. cbn in Hsum. discriminate Hsum.
Qed.

(** ** The seam *)

Lemma lookup_rev {A} (l : list A) (i : nat) :
  (i < length l)%nat -> rev l !! i = l !! (length l - S i)%nat.
Proof. intros Hi. rewrite rev_alt. now apply reverse_lookup. Qed.

(** [seam_end] is the leftmost column of the least entry of the last row. *)
Lemma seam_end_leftmost (H W : nat) (energy_totals : grid) :
  (1 <= H)%nat -> (1 <= W)%nat -> rect H W energy_totals ->
  exists (end_x : nat) (last_row : list Z) (m : Z),
    seam_end energy_totals = Ok (Z.of_nat end_x) /\
    energy_totals !! (H - 1)%nat = Some last_row /\
    (end_x < W)%nat /\
    last_row !! end_x = Some m /\
    (forall c v, last_row !! c = Some v -> m <= v) /\
    (forall c, last_row !! c = Some m -> (end_x <= c)%nat).
Proof.
  intros HH HW Ht.
  destruct (rect_row H W energy_totals (H - 1) Ht) as (row & Hrow & Hlen);
    [lia |].
  assert (Hne : row <> []) by (intros ->; cbn in Hlen; lia).
  destruct (builtin_min_spec row Hne) as (m & Hmin & Hm & Hleast).
  destruct (first_index_elem row m Hm) as [k Hk].
  destruct (first_index_Some row m k Hk) as [Hkm Hfirst].
  exists k, row, m. split.
  { unfold seam_end. destruct Ht as [HL _].
    assert (Hget : load_int energy_totals (-1) = Ok row).
    { unfold load_int. rewrite HL. zbool. apply load_Ok.
      now replace (Z.to_nat (-1 + Z.of_nat H)) with (H - 1)%nat by lia. }
    rewrite Hget. cbn [bind]. rewrite Hmin. cbn [bind].
    unfold list_index. now rewrite Hk. }
  split; [exact Hrow |]. split.
  { apply lookup_lt_Some in Hkm. lia. }
  split; [exact Hkm |]. split; [| exact Hfirst].
  intros c v Hv. apply Hleast. apply list_elem_of_lookup. now exists c.
Qed.

Lemma backtrack_length paths n : forall x, length (backtrack paths n x) = n.
Proof.
  induction n as [| n IH]; intros x; cbn; [reflexivity | now rewrite IH].
Qed.

Lemma find_seam_step_ok (H W : nat) (paths : grid) (acc : list Z) x i :
  rect H W paths -> offsets_in_grid W paths ->
  (1 <= i < H)%nat -> 0 <= x < Z.of_nat W ->
  find_seam_step paths (acc ++ [x]) i
  = Ok ((acc ++ [x]) ++ [x + offset_at paths i x]) /\
  (exists o, cell paths i (Z.to_nat x) = Some o /\ offset_at paths i x = o) /\
  0 <= x + offset_at paths i x < Z.of_nat W.
Proof.
  intros HP Hgrid Hi Hx.
  destruct (rect_row H W paths i HP) as (row & Hrow & Hlen); [lia |].
  destruct (lookup_lt_is_Some_2 row (Z.to_nat x)) as [o Ho]; [lia |].
  assert (Hcell : cell paths i (Z.to_nat x) = Some o)
    by (unfold cell; now rewrite Hrow).
  assert (Hoff : offset_at paths i x = o)
    by (unfold offset_at; now rewrite Hcell).
  split.
  { unfold find_seam_step. rewrite getitem_int_last. cbn [bind].
    rewrite (load_Ok _ _ _ Hrow). cbn [bind].
    rewrite load_int_nonneg by lia.
    rewrite (load_Ok _ _ _ Ho). cbn [bind]. now rewrite Hoff. }
  split; [now exists o |].
  rewrite Hoff. specialize (Hgrid i (Z.to_nat x) o). 
  rewrite Z2Nat.id in Hgrid by lia. apply Hgrid; [lia | exact Hcell].
Qed.

Lemma find_seam_loop (H W : nat) (paths : grid) n : forall acc x,
  rect H W paths -> offsets_in_grid W paths ->
  (n < H)%nat -> 0 <= x < Z.of_nat W ->
  for_each (find_seam_step paths) (rev (seq 1 n)) (acc ++ [x])
  = Ok (acc ++ x :: backtrack paths n x) /\
  Forall (fun y => 0 <= y < Z.of_nat W) (backtrack paths n x).
Proof.
  induction n as [| n IH]; intros acc x HP Hgrid Hn Hx.
  - cbn. split; [reflexivity | constructor].
  - rewrite seq_S, rev_unit. cbn [for_each Nat.add].
    destruct (find_seam_step_ok H W paths acc x (S n) HP Hgrid)
      as (Hstep & _ & Hnext); [lia | exact Hx |].
    rewrite Hstep. cbn [bind].
    destruct (IH (acc ++ [x]) (x + offset_at paths (S n) x) HP Hgrid)
      as [Hloop Hall]; [lia | exact Hnext |].
    rewrite Hloop. split.
    + cbn [backtrack]. now rewrite <- app_assoc.
    + cbn [backtrack]. constructor; [exact Hnext | exact Hall].
Qed.

(** Backtracking from [x] at row [n], bottom row first. *)
Lemma backtrack_chain paths n : forall x k,
  (k < n)%nat ->
  exists y,
    (x :: backtrack paths n x) !! k = Some y /\
    (x :: backtrack paths n x) !! S k
    = Some (y + offset_at paths (n - k) y).
Proof.
  induction n as [| n IH]; intros x k Hk; [lia |].
  destruct k as [| k].
  - exists x. split; [reflexivity |].
    now replace (S n - 0)%nat with (S n) by lia.
  - destruct (IH (x + offset_at paths (S n) x) k) as (y & H1 & H2); [lia |].
    exists y. cbn [backtrack]. split; [exact H1 |].
    replace (S n - S k)%nat with (n - k)%nat by lia. exact H2.
Qed.

(** [find_seam] on a grid whose offsets stay in the grid. *)
Lemma find_seam_ok (H W : nat) (paths : grid) (end_x : Z) :
  (1 <= H)%nat -> rect H W paths -> offsets_in_grid W paths ->
  0 <= end_x < Z.of_nat W ->
  exists seam,
    find_seam paths end_x = Ok seam /\
    length seam = H /\
    Forall (fun y => 0 <= y < Z.of_nat W) seam /\
    seam !! (H - 1)%nat = Some end_x /\
    (forall i, (i + 1 < H)%nat ->
       exists x,
         seam !! (i + 1)%nat = Some x /\
         seam !! i = Some (x + offset_at paths (i + 1) x)).
Proof.
  intros HH HP Hgrid Hx.
  destruct (find_seam_loop H W paths (H - 1) [] end_x HP Hgrid)
    as [Hloop Hall]; [lia | exact Hx |].
  set (t := end_x :: backtrack paths (H - 1) end_x) in *.
  assert (Hlen : length t = H).
  { unfold t. cbn [length]. rewrite backtrack_length. lia. }
  exists (rev t). split.
  { unfold find_seam, height. destruct HP as [-> _].
    cbn [app] in Hloop. rewrite Hloop. reflexivity. }
  split; [now rewrite length_rev |]. split.
  { apply Forall_forall. intros y Hy.
    apply list_elem_of_In, in_rev, list_elem_of_In in Hy.
    unfold t in Hy. apply elem_of_cons in Hy as [-> | Hy]; [exact Hx |].
    rewrite Forall_forall in Hall. now apply Hall. }
  split.
  { rewrite lookup_rev by lia. rewrite Hlen.
    now replace (H - S (H - 1))%nat with 0%nat by lia. }
  intros i Hi.
  destruct (backtrack_chain paths (H - 1) end_x (H - 1 - (i + 1)))
    as (y & H1 & H2); [lia |].
  fold t in H1, H2. exists y.
  rewrite !lookup_rev by lia. rewrite Hlen.
  replace (H - S (i + 1))%nat with (H - 1 - (i + 1))%nat by lia.
  split; [exact H1 |].
  replace (H - S i)%nat with (S (H - 1 - (i + 1))) by lia.
  rewrite H2. do 3 f_equal. lia.
Qed.

Lemma for_each_ext {S A} (f g : S -> A -> result S) (xs : list A) :
  (forall s x, x ∈ xs -> f s x = g s x) ->
  forall s, for_each f xs s = for_each g xs s.
Proof.
  induction xs as [| x xs IH]; intros Hfg s; cbn; [reflexivity |].
  rewrite (Hfg s x) by (apply elem_of_cons; now left).
  destruct (g s x) as [s' | e |]; cbn; [| reflexivity ..].
  apply IH. intros s0 y Hy. apply Hfg. apply elem_of_cons. now right.
Qed.

Lemma find_seam_row0 (row0 row0' : list Z) (rest : grid) (end_x : Z) :
  find_seam (row0 :: rest) end_x = find_seam (row0' :: rest) end_x.
Proof.
  unfold find_seam, height. cbn [length].
  rewrite (for_each_ext (find_seam_step (row0 :: rest))
             (find_seam_step (row0' :: rest))); [reflexivity |].
  intros seam i Hi.
  apply list_elem_of_In, in_rev, in_seq in Hi.
  destruct i as [| i]; [lia | reflexivity].
Qed.

(** X2.  [find_seam] does not read row 0 of the offset grid: from a column
    of a grid whose offsets stay in the grid it returns the same seam
    whatever the cast of NaN to int64 left in that row. *)
Lemma find_seam_ignores_row0 (H W : nat) (row0 row0' : list Z) (rest : grid)
    (end_x : Z) :
  rect H W (row0 :: rest) -> offsets_in_grid W (row0 :: rest) ->
  0 <= end_x < Z.of_nat W ->
  exists seam,
    find_seam (row0 :: rest) end_x = Ok seam /\
    find_seam (row0' :: rest) end_x = Ok seam.
Proof.
  intros HP Hgrid Hx.
  assert (HH : (1 <= H)%nat) by (destruct HP as [<- _]; cbn; lia).
  destruct (find_seam_ok H W (row0 :: rest) end_x HH HP Hgrid Hx)
    as (seam & Hseam & _).
  exists seam. split; [exact Hseam |].
  now rewrite (find_seam_row0 row0' row0).
Qed.

Lemma find_seam_ignores_row0_witness :
  exists seam,
    find_seam [[nan_int64; nan_int64]; [0; -1]] 1 = Ok seam /\
    find_seam [[7; 7]; [0; -1]] 1 = Ok seam.
Proof.
  apply (find_seam_ignores_row0 2 2).
  - apply rect_concrete; reflexivity.
  - intros i j o Hi Hc.
    destruct i as [| [| i]]; [lia | | discriminate Hc].
    destruct j as [| [| j]]; cbn in Hc; [| | discriminate Hc];
      injection Hc as <-; lia.
  - lia.
Defined.

(** The source's [paths[i][cur_x]] for a column of the grid. *)
Lemma offset_at_lookup (H W : nat) (paths : grid) (i : nat) (x : Z) :
  rect H W paths -> (i < H)%nat -> 0 <= x < Z.of_nat W ->
  cell paths i (Z.to_nat x) = Some (offset_at paths i x) /\
  (let* row := getitem paths i in getitem_int row x)
  = Ok (offset_at paths i x).
Proof.
  intros HP Hi Hx.
  destruct (rect_row H W paths i HP Hi) as (row & Hrow & Hlen).
  destruct (lookup_lt_is_Some_2 row (Z.to_nat x)) as [o Ho]; [lia |].
  assert (Hcell : cell paths i (Z.to_nat x) = Some o)
    by (unfold cell; now rewrite Hrow).
  unfold offset_at. rewrite Hcell. split; [reflexivity |].
  rewrite (getitem_Ok _ _ _ Hrow). cbn [bind].
  rewrite getitem_int_nonneg by lia. now apply getitem_Ok.
Qed.

(** C3.  For a cumulative table and an offset grid of height [H >= 1]
    (and width [W >= 1], the offsets pointing to columns of the row above,
    as the data model has them): [seam_end] returns the leftmost column at
    which the last row of the table takes its least value; [find_seam] with
    that column returns a list [seam] of length exactly [H], in top-to-bottom
    order, with [seam[H-1]] the end column and, for every [i] from [H-2] down
    to [0], [seam[i] = seam[i+1] + paths[i+1][seam[i+1]]]. *)
Theorem seam_end_find_seam (H W : nat) (energy_totals paths : grid) :
  (1 <= H)%nat -> (1 <= W)%nat ->
  rect H W energy_totals -> rect H W paths -> offsets_in_grid W paths ->
  exists (end_x : nat) (last_row : list Z) (m : Z) (seam : list Z),
    seam_end energy_totals = Ok (Z.of_nat end_x) /\
    energy_totals !! (H - 1)%nat = Some last_row /\
    last_row !! end_x = Some m /\
    (forall c v, last_row !! c = Some v -> m <= v) /\
    (forall c, last_row !! c = Some m -> (end_x <= c)%nat) /\
    find_seam paths (Z.of_nat end_x) = Ok seam /\
    length seam = H /\
    seam !! (H - 1)%nat = Some (Z.of_nat end_x) /\
    forall i, (i + 1 < H)%nat ->
      exists x o,
        seam !! (i + 1)%nat = Some x /\
        (let* row := getitem paths (i + 1) in getitem_int row x) = Ok o /\
        seam !! i = Some (x + o).
Proof.
  intros HH HW Ht HP Hgrid.
  destruct (seam_end_leftmost H W energy_totals HH HW Ht)
    as (end_x & last_row & m & Hend & Hlast & HxW & Hm & Hleast & Hleft).
  destruct (find_seam_ok H W paths (Z.of_nat end_x) HH HP Hgrid)
    as (seam & Hseam & Hlen & Hall & Hbottom & Hchain); [lia |].
  exists end_x, last_row, m, seam.
  split; [exact Hend |]. split; [exact Hlast |]. split; [exact Hm |].
  split; [exact Hleast |]. split; [exact Hleft |]. split; [exact Hseam |].
  split; [exact Hlen |]. split; [exact Hbottom |].
  intros i Hi. destruct (Hchain i Hi) as (x & Hx & Hprev).
  exists x, (offset_at paths (i + 1) x). split; [exact Hx |].
  split; [| exact Hprev].
  apply (offset_at_lookup H W); [exact HP | lia |].
  exact (Forall_lookup_1 _ _ _ _ Hall Hx).
Qed.

Lemma seam_end_find_seam_witness :
  exists (end_x : nat) (seam : list Z),
    seam_end [[1; 2]; [3; 3]] = Ok (Z.of_nat end_x) /\
    find_seam [[0; 0]; [0; -1]] (Z.of_nat end_x) = Ok seam /\
    length seam = 2%nat.
Proof.
  destruct (seam_end_find_seam 2 2 [[1; 2]; [3; 3]] [[0; 0]; [0; -1]])
    as (end_x & _ & _ & seam & H1 & _ & _ & _ & _ & H2 & H3 & _).
  - lia.
  - lia.
  - apply rect_concrete; reflexivity.
  - apply rect_concrete; reflexivity.
  - intros i j o Hi Hc.
    destruct i as [| [| i]]; [lia | | discriminate Hc].
    destruct j as [| [| j]]; cbn in Hc; [| | discriminate Hc];
      injection Hc as <-; lia.
  - exists end_x, seam. auto.
Defined.

(** What the recurrence says about the stored offset. *)
Lemma cell_done_offset W energy P E i j :
  cell_done W energy P E i j ->
  exists o,
    cell P i j = Some o /\
    -1 <= o <= 1 /\
    0 <= Z.of_nat j + o < Z.of_nat W /\
    (j = 0%nat -> 0 <= o) /\
    (j = (W - 1)%nat -> o <= 0).
Proof.
  intros (prev & c & m & e & _ & ([Hc HcW] & _) & _ & _ & Hoff).
  exists (Z.of_nat c - Z.of_nat j). split; [exact Hoff |]. lia.
Qed.

(** The offsets that [cumulative_energy] stores. *)
Lemma cumulative_energy_offsets (H W : nat) (energy paths pe : grid) :
  (1 <= H)%nat -> rect H W energy ->
  cumulative_energy energy = Ok (paths, pe) ->
  rect H W paths /\ rect H W pe /\
  forall i j o, (1 <= i)%nat -> cell paths i j = Some o ->
    -1 <= o <= 1 /\
    0 <= Z.of_nat j + o < Z.of_nat W /\
    (j = 0%nat -> 0 <= o) /\
    (j = (W - 1)%nat -> o <= 0).
Proof.
  intros HH Hen Hrun.
  destruct (cumulative_energy_tables H W energy HH Hen)
    as (P & E & Hrun' & HP & HE & _ & _ & Hdone).
  rewrite Hrun in Hrun'. injection Hrun' as <- <-.
  split; [exact HP |]. split; [exact HE |].
  intros i j o Hi Hc.
  destruct (cell_Some_lt H W paths i j o HP Hc) as [HiH HjW].
  destruct (cell_done_offset W energy paths pe i j) as (o' & Ho' & Hfacts).
  { apply Hdone; lia. }
  rewrite Hc in Ho'. injection Ho' as <-. exact Hfacts.
Qed.

(** The seam of an energy grid: the pipeline of [resize_image]. *)
Lemma pipeline_seam (H W : nat) (energy : grid) :
  (1 <= H)%nat -> (1 <= W)%nat -> rect H W energy ->
  exists paths pe end_x seam,
    cumulative_energy energy = Ok (paths, pe) /\
    seam_end pe = Ok end_x /\
    find_seam paths end_x = Ok seam /\
    length seam = H /\
    Forall (fun y => 0 <= y < Z.of_nat W) seam /\
    (forall i, (i + 1 < H)%nat ->
       exists a b,
         seam !! i = Some a /\ seam !! (i + 1)%nat = Some b /\
         -1 <= b - a <= 1).
Proof.
  intros HH HW Hen.
  destruct (cumulative_energy_tables H W energy HH Hen)
    as (P & E & Hrun & HP & HE & _ & _ & _).
  destruct (cumulative_energy_offsets H W energy P E HH Hen Hrun)
    as (_ & _ & Hoff).
  assert (Hgrid : offsets_in_grid W P).
  { intros i j o Hi Hc. now apply (Hoff i j o Hi Hc). }
  destruct (seam_end_leftmost H W E HH HW HE)
    as (end_x & _ & _ & Hend & _ & HxW & _).
  destruct (find_seam_ok H W P (Z.of_nat end_x) HH HP Hgrid)
    as (seam & Hseam & Hlen & Hall & _ & Hchain); [lia |].
  exists P, E, (Z.of_nat end_x), seam.
  split; [exact Hrun |]. split; [exact Hend |]. split; [exact Hseam |].
  split; [exact Hlen |]. split; [exact Hall |].
  intros i Hi. destruct (Hchain i Hi) as (x & Hx & Hprev).
  exists (x + offset_at P (i + 1) x), x.
  split; [exact Hprev |]. split; [exact Hx |].
  pose proof (Forall_lookup_1 _ _ _ _ Hall Hx) as Hrange.
  destruct (offset_at_lookup H W P (i + 1) x HP) as [Hcell _];
    [lia | exact Hrange |].
  destruct (Hoff (i + 1)%nat (Z.to_nat x) _ ltac:(lia) Hcell) as [Hsmall _].
  lia.
Qed.

(** C5.  The seam that [find_seam] builds from the offsets of
    [cumulative_energy] and the end column of [seam_end] moves by at most
    one column from a row to the next: [|seam[i+1] - seam[i]| <= 1] for
    every [i] in [0, H-2]. *)
Theorem pipeline_seam_adjacent (H W : nat) (energy : grid) :
  (1 <= H)%nat -> (1 <= W)%nat -> rect H W energy ->
  exists paths path_energies end_x seam,
    cumulative_energy energy = Ok (paths, path_energies) /\
    seam_end path_energies = Ok end_x /\
    find_seam paths end_x = Ok seam /\
    length seam = H /\
    forall i, (i + 1 < H)%nat ->
      exists a b,
        seam !! i = Some a /\ seam !! (i + 1)%nat = Some b /\
        Z.abs (b - a) <= 1.
Proof.
  intros HH HW Hen.
  destruct (pipeline_seam H W energy HH HW Hen)
    as (P & E & end_x & seam & H1 & H2 & H3 & H4 & _ & Hadj).
  exists P, E, end_x, seam. repeat (split; [assumption |]).
  intros i Hi. destruct (Hadj i Hi) as (a & b & Ha & Hb & Hab).
  exists a, b. split; [exact Ha |]. split; [exact Hb | lia].
Qed.

Lemma pipeline_seam_adjacent_witness :
  exists paths path_energies end_x seam,
    cumulative_energy [[10; 13; 10]; [37; 40; 37]; [10; 13; 10]]
    = Ok (paths, path_energies) /\
    seam_end path_energies = Ok end_x /\
    find_seam paths end_x = Ok seam /\
    length seam = 3%nat.
Proof.
  destruct (pipeline_seam_adjacent 3 3
              [[10; 13; 10]; [37; 40; 37]; [10; 13; 10]])
    as (P & E & end_x & seam & H1 & H2 & H3 & H4 & _).
  - lia.
  - lia.
  - apply rect_concrete; reflexivity.
  - exists P, E, end_x, seam. auto.
Defined.

(** ** Removing a seam *)

Lemma comprehension_ok {A B} (f : A -> result B) (g : A -> B) (xs : list A) :
  (forall x, x ∈ xs -> f x = Ok (g x)) -> comprehension f xs = Ok (map g xs).
Proof.
  induction xs as [| x xs IH]; intros Hf; cbn; [reflexivity |].
  rewrite (Hf x) by (apply elem_of_cons; now left). cbn [bind].
  rewrite IH; [reflexivity |].
  intros y Hy. apply Hf. apply elem_of_cons. now right.
Qed.

Lemma np_delete_ok {A} (a : list A) (s : nat) :
  (s < length a)%nat ->
  np_delete a (Z.of_nat s) = Ok (take s a ++ drop (S s) a).
Proof.
  intros Hs. unfold np_delete. zbool. now rewrite Nat2Z.id.
Qed.

Lemma np_delete_lookup {A} (a : list A) (s : nat) :
  (s < length a)%nat ->
  length (take s a ++ drop (S s) a) = (length a - 1)%nat /\
  (forall c, (c < s)%nat -> (take s a ++ drop (S s) a) !! c = a !! c) /\
  (forall c, (s <= c)%nat -> (take s a ++ drop (S s) a) !! c = a !! S c).
Proof.
  intros Hs. split; [| split].
  - rewrite length_app, length_take, length_drop. lia.
  - intros c Hc. rewrite lookup_app_l by (rewrite length_take; lia).
    now apply lookup_take_lt.
  - intros c Hc. rewrite lookup_app_r by (rewrite length_take; lia).
    rewrite length_take, lookup_drop. f_equal. lia.
Qed.

Lemma remove_seam_ok (H W : nat) (img : image) (seam : list Z) :
  rect H W img -> length seam = H ->
  Forall (fun s => 0 <= s < Z.of_nat W) seam ->
  remove_seam img seam = Ok (map (carved_row img seam) (seq 0 H)) /\
  rect H (W - 1) (map (carved_row img seam) (seq 0 H)).
Proof.
  intros Himg Hlen Hall. split.
  - unfold remove_seam, height. destruct Himg as [HL Hrows]. rewrite HL.
    apply comprehension_ok. intros r Hr.
    apply elem_of_seq in Hr as [_ Hr]. cbn in Hr.
    destruct (lookup_lt_is_Some_2 img r) as [row Hrow]; [lia |].
    destruct (lookup_lt_is_Some_2 seam r) as [s Hs]; [lia |].
    pose proof (Forall_lookup_1 _ _ _ _ Hall Hs) as Hrange.
    pose proof (Forall_lookup_1 _ _ _ _ Hrows Hrow) as Hw.
    cbn in Hw, Hrange.
    rewrite (getitem_Ok _ _ _ Hrow). cbn [bind].
    rewrite (getitem_Ok _ _ _ Hs). cbn [bind].
    unfold carved_row. rewrite Hrow, Hs.
    rewrite <- (Z2Nat.id s) at 1 by lia. apply np_delete_ok. lia.
  - split; [now rewrite length_map, length_seq |].
    apply Forall_forall. intros row' Hrow'.
    apply list_elem_of_fmap in Hrow' as (r & -> & Hr).
    apply elem_of_seq in Hr as [_ Hr]. cbn in Hr.
    destruct (rect_row H W img r Himg Hr) as (row & Hrow & Hw).
    destruct (lookup_lt_is_Some_2 seam r) as [s Hs]; [lia |].
    pose proof (Forall_lookup_1 _ _ _ _ Hall Hs) as Hrange. cbn in Hrange.
    unfold carved_row. rewrite Hrow, Hs.
    destruct (np_delete_lookup row (Z.to_nat s)) as [-> _]; lia.
Qed.

Lemma carved_row_lookup (H W : nat) (img : image) (seam : list Z) r :
  rect H W img -> length seam = H -> (r < H)%nat ->
  map (carved_row img seam) (seq 0 H) !! r = Some (carved_row img seam r).
Proof.
  intros Himg Hlen Hr. rewrite list_lookup_fmap.
  now rewrite lookup_seq_lt.
Qed.

Lemma carved_row_channels (C : nat) (img : image) (seam : list Z) r :
  Forall (Forall (fun p => length p = C)) img ->
  Forall (fun p => length p = C) (carved_row img seam r).
Proof.
  intros Hall. unfold carved_row.
  destruct (img !! r) as [row |] eqn:Hrow; [| constructor].
  destruct (seam !! r) as [s |]; [| constructor].
  pose proof (Forall_lookup_1 _ _ _ _ Hall Hrow) as Hpx.
  apply Forall_app. split; [now apply Forall_take | now apply Forall_drop].
Qed.

Lemma remove_seam_shape (H W C : nat) (img : image) (seam : list Z) :
  image_shape H W C img -> length seam = H ->
  Forall (fun s => 0 <= s < Z.of_nat W) seam ->
  exists img',
    remove_seam img seam = Ok img' /\ image_shape H (W - 1) C img'.
Proof.
  intros [Hrect Hpx] Hlen Hall.
  destruct (remove_seam_ok H W img seam Hrect Hlen Hall) as [Hrun Hrect'].
  exists (map (carved_row img seam) (seq 0 H)).
  split; [exact Hrun |]. split; [exact Hrect' |].
  apply Forall_forall. intros row' Hrow'.
  apply list_elem_of_fmap in Hrow' as (r & -> & _).
  now apply carved_row_channels.
Qed.

(** C4.  For an image of height [H >= 1], width [W >= 1] and any number
    [C] of channels, and a seam that gives every row one column in
    [0, W-1], [remove_seam] returns a new image of width [W-1] with the
    same height and channels; its row [r] is row [r] of the input without
    the pixel at column [seam[r]]: the pixels to its left stay where they
    are and those to its right move one column to the left, all with their
    values. *)
Theorem remove_seam_rows (H W C : nat) (img : image) (seam : list Z) :
  (1 <= H)%nat -> (1 <= W)%nat ->
  image_shape H W C img ->
  length seam = H -> Forall (fun s => 0 <= s < Z.of_nat W) seam ->
  exists img',
    remove_seam img seam = Ok img' /\
    image_shape H (W - 1) C img' /\
    forall r, (r < H)%nat ->
      exists (row : list (list Z)) (s : nat),
        img !! r = Some row /\
        seam !! r = Some (Z.of_nat s) /\
        img' !! r = Some (take s row ++ drop (S s) row) /\
        (forall c, (c < s)%nat -> cell img' r c = cell img r c) /\
        (forall c, (s <= c)%nat -> cell img' r c = cell img r (S c)).
Proof.
  intros _ _ Hshape Hlen Hall.
  destruct (remove_seam_shape H W C img seam Hshape Hlen Hall)
    as (img' & Hrun & Hshape').
  exists img'. split; [exact Hrun |]. split; [exact Hshape' |].
  destruct Hshape as [Hrect _].
  destruct (remove_seam_ok H W img seam Hrect Hlen Hall) as [Hrun' _].
  rewrite Hrun in Hrun'. injection Hrun' as ->.
  intros r Hr.
  destruct (rect_row H W img r Hrect Hr) as (row & Hrow & Hw).
  destruct (lookup_lt_is_Some_2 seam r) as [s Hs]; [lia |].
  pose proof (Forall_lookup_1 _ _ _ _ Hall Hs) as Hrange. cbn in Hrange.
  exists row, (Z.to_nat s).
  assert (Hnew : map (carved_row img seam) (seq 0 H) !! r
                 = Some (take (Z.to_nat s) row ++ drop (S (Z.to_nat s)) row)).
  { rewrite (carved_row_lookup H W img seam r Hrect Hlen Hr).
    unfold carved_row. now rewrite Hrow, Hs. }
  destruct (np_delete_lookup row (Z.to_nat s)) as (_ & Hleft & Hright); [lia |].
  split; [exact Hrow |]. split; [now rewrite Z2Nat.id by lia |].
  split; [exact Hnew |]. unfold cell. rewrite Hnew, Hrow.
  split; [exact Hleft | exact Hright].
Qed.

Lemma image_shape_concrete (H W C : nat) (img : image) :
  length img = H ->
  forallb (fun row => Nat.eqb (length row) W) img = true ->
  forallb (forallb (fun p => Nat.eqb (length p) C)) img = true ->
  image_shape H W C img.
Proof.
  intros HL HW HC. split; [now apply rect_concrete |].
  apply Forall_forall. intros row Hrow. apply Forall_forall. intros p Hp.
  apply list_elem_of_In in Hrow, Hp.
  rewrite forallb_forall in HC. specialize (HC row Hrow).
  rewrite forallb_forall in HC. now apply Nat.eqb_eq, HC.
Qed.

Lemma remove_seam_rows_witness :
  exists img',
    remove_seam [[[1; 1]; [2; 2]; [3; 3]]; [[4; 4]; [5; 5]; [6; 6]]] [2; 0]
    = Ok img' /\
    image_shape 2 2 2 img'.
Proof.
  destruct (remove_seam_rows 2 3 2
              [[[1; 1]; [2; 2]; [3; 3]]; [[4; 4]; [5; 5]; [6; 6]]] [2; 0])
    as (img' & H1 & H2 & _).
  - lia.
  - lia.
  - apply image_shape_concrete; reflexivity.
  - reflexivity.
  - repeat constructor; lia.
  - exists img'. auto.
Defined.

(** C10.  Every entry of the seam that [find_seam] builds from the offsets
    of [cumulative_energy] and the end column of [seam_end] is a column in
    [0, W-1]: below row 0 the stored offset is 0 or +1 at column 0, -1 or 0
    at column [W-1] and -1, 0 or +1 elsewhere, so backtracking stays in the
    grid, and [remove_seam] with that seam deletes in bounds in every
    row. *)
Theorem pipeline_seam_in_bounds (H W : nat) (energy : grid) :
  (1 <= H)%nat -> (1 <= W)%nat -> rect H W energy ->
  exists paths path_energies end_x seam,
    cumulative_energy energy = Ok (paths, path_energies) /\
    seam_end path_energies = Ok end_x /\
    find_seam paths end_x = Ok seam /\
    Forall (fun x => 0 <= x <= Z.of_nat W - 1) seam /\
    (forall i j, (1 <= i < H)%nat -> (j < W)%nat ->
       exists o,
         cell paths i j = Some o /\
         (o = -1 \/ o = 0 \/ o = 1) /\
         (j = 0%nat -> o = 0 \/ o = 1) /\
         (j = (W - 1)%nat -> o = -1 \/ o = 0)) /\
    (forall (img : image), rect H W img ->
       exists img', remove_seam img seam = Ok img').
Proof.
  intros HH HW Hen.
  destruct (pipeline_seam H W energy HH HW Hen)
    as (P & E & end_x & seam & H1 & H2 & H3 & Hlen & Hall & _).
  exists P, E, end_x, seam. repeat (split; [assumption |]).
  destruct (cumulative_energy_offsets H W energy P E HH Hen H1)
    as (HP & _ & Hoff).
  split.
  { eapply Forall_impl; [exact Hall |]. cbn. intros x Hx. lia. }
  split.
  - intros i j Hi Hj.
    destruct (rect_cell H W P i j HP) as [o Ho]; [lia | exact Hj |].
    exists o. split; [exact Ho |].
    destruct (Hoff i j o ltac:(lia) Ho) as (Hs & _ & H0 & HW1). lia.
  - intros img Himg.
    destruct (remove_seam_ok H W img seam Himg Hlen Hall) as [Hrun _].
    eauto.
Qed.

Lemma pipeline_seam_in_bounds_witness :
  exists paths path_energies end_x seam,
    cumulative_energy [[10; 13; 10]; [37; 40; 37]; [10; 13; 10]]
    = Ok (paths, path_energies) /\
    seam_end path_energies = Ok end_x /\
    find_seam paths end_x = Ok seam /\
    Forall (fun x => 0 <= x <= 2) seam.
Proof.
  destruct (pipeline_seam_in_bounds 3 3
              [[10; 13; 10]; [37; 40; 37]; [10; 13; 10]])
    as (P & E & end_x & seam & H1 & H2 & H3 & H4 & _).
  - lia.
  - lia.
  - apply rect_concrete; reflexivity.
  - exists P, E, end_x, seam. auto.
Defined.

(** ** The energy map *)

Section Roll.

Context {A : Type}.
Implicit Types (a : list A) (s : Z) (i : nat).

Lemma roll_split a s :
  (0 < length a)%nat ->
  exists k : nat,
    (k < length a)%nat /\
    Z.of_nat k = s mod Z.of_nat (length a) /\
    roll s a = drop (length a - k) a ++ take (length a - k) a.
Proof.
  intros Hn.
  pose proof (Z.mod_pos_bound s (Z.of_nat (length a)) ltac:(lia)) as Hk.
  exists (Z.to_nat (s mod Z.of_nat (length a))).
  split; [lia |]. split; [lia |].
  unfold roll. destruct (length a) eqn:E; [lia | reflexivity].
Qed.

Lemma length_roll a s : length (roll s a) = length a.
Proof.
  destruct (length a) eqn:E.
  - unfold roll. now rewrite E.
  - destruct (roll_split a s) as (k & Hk & _ & ->); [lia |].
    rewrite length_app, length_drop, length_take. lia.
Qed.

Lemma Forall_roll (P : A -> Prop) a s : Forall P a -> Forall P (roll s a).
Proof.
  intros Ha. destruct (length a) eqn:E.
  - unfold roll. now rewrite E.
  - destruct (roll_split a s) as (k & _ & _ & ->); [lia |].
    apply Forall_app. split; [now apply Forall_drop | now apply Forall_take].
Qed.

(** The element that [np.roll] leaves at position [i] comes from position
    [(i - shift) mod n]. *)
Lemma lookup_roll a s i :
  (i < length a)%nat ->
  roll s a !! i = a !! Z.to_nat ((Z.of_nat i - s) mod Z.of_nat (length a)).
Proof.
  intros Hi. destruct (roll_split a s) as (k & Hk & Hmod & ->); [lia |].
  set (n := length a) in *.
  pose proof (Z.div_mod s (Z.of_nat n) ltac:(lia)) as Hdiv.
  rewrite <- Hmod in Hdiv. set (d := s / Z.of_nat n) in *.
  destruct (decide (i < k)%nat) as [Hlt | Hge].
  - rewrite lookup_app_l by (rewrite length_drop; lia).
    rewrite lookup_drop. f_equal.
    assert (E : Z.of_nat i - Z.of_nat k + Z.of_nat n
                = (Z.of_nat i - s) mod Z.of_nat n).
    { apply (Z.mod_unique_pos _ _ (- d - 1)); [lia | nia]. }
    rewrite <- E. lia.
  - rewrite lookup_app_r by (rewrite length_drop; lia).
    rewrite length_drop, lookup_take_lt by lia. f_equal.
    assert (E : Z.of_nat i - Z.of_nat k = (Z.of_nat i - s) mod Z.of_nat n).
    { apply (Z.mod_unique_pos _ _ (- d)); [lia | nia]. }
    rewrite <- E. lia.
Qed.

End Roll.

(** Entries of arrays built by [map] and [zip_with]. *)
Lemma cell_map {A B} (f : A -> B) (a : list (list A)) r c :
  cell (map (map f) a) r c = f <$> cell a r c.
Proof.
  unfold cell. rewrite list_lookup_fmap.
  destruct (a !! r) as [row |]; cbn; [apply list_lookup_fmap | reflexivity].
Qed.

Lemma cell_zip_with {A B C} (f : A -> B -> C) (a : list (list A))
    (b : list (list B)) r c x y :
  cell a r c = Some x -> cell b r c = Some y ->
  cell (zip_with (zip_with f) a b) r c = Some (f x y).
Proof.
  unfold cell. intros Ha Hb. rewrite lookup_zip_with.
  destruct (a !! r) as [ra |]; [| discriminate].
  destruct (b !! r) as [rb |]; [| discriminate]. cbn.
  rewrite lookup_zip_with. now rewrite Ha, Hb.
Qed.

Lemma cell_roll_columns {A} (H W : nat) (a : list (list A)) s r c :
  rect H W a -> (r < H)%nat -> (c < W)%nat ->
  cell (map (roll s) a) r c
  = cell a r (Z.to_nat ((Z.of_nat c - s) mod Z.of_nat W)).
Proof.
  intros Ha Hr Hc. destruct (rect_row H W a r Ha Hr) as (row & Hrow & Hlen).
  unfold cell. rewrite list_lookup_fmap, Hrow. cbn.
  rewrite lookup_roll by lia. now rewrite Hlen.
Qed.

Lemma cell_roll_rows {A} (H W : nat) (a : list (list A)) s r c :
  rect H W a -> (r < H)%nat ->
  cell (roll s a) r c
  = cell a (Z.to_nat ((Z.of_nat r - s) mod Z.of_nat H)) c.
Proof.
  intros [HL _] Hr. unfold cell. rewrite lookup_roll by lia. now rewrite HL.
Qed.

Lemma rect_map {A B} (H W : nat) (f : A -> B) (a : list (list A)) :
  rect H W a -> rect H W (map (map f) a).
Proof.
  intros [HL Hall]. split; [now rewrite length_map |].
  apply Forall_fmap. eapply Forall_impl; [exact Hall |].
  cbn. intros row Hrow. now rewrite length_map.
Qed.

Lemma rect_zip_with {A B C} (H W : nat) (f : A -> B -> C)
    (a : list (list A)) (b : list (list B)) :
  rect H W a -> rect H W b -> rect H W (zip_with (zip_with f) a b).
Proof.
  intros [HLa Ha] [HLb Hb]. split; [rewrite length_zip_with; lia |].
  apply Forall_lookup_2. intros r row Hrow.
  apply lookup_zip_with_Some in Hrow as (ra & rb & -> & Hra & Hrb).
  pose proof (Forall_lookup_1 _ _ _ _ Ha Hra) as Hwa.
  pose proof (Forall_lookup_1 _ _ _ _ Hb Hrb) as Hwb.
  cbn in Hwa, Hwb. rewrite length_zip_with. lia.
Qed.

Lemma rect_roll_rows {A} (H W : nat) (a : list (list A)) s :
  rect H W a -> rect H W (roll s a).
Proof.
  intros [HL Hall]. split; [now rewrite length_roll | now apply Forall_roll].
Qed.

Lemma rect_roll_columns {A} (H W : nat) (a : list (list A)) s :
  rect H W a -> rect H W (map (roll s) a).
Proof.
  intros [HL Hall]. split; [now rewrite length_map |].
  apply Forall_fmap. eapply Forall_impl; [exact Hall |].
  cbn. intros row Hrow. now rewrite length_roll.
Qed.

Lemma image_shape_cell (H W C : nat) (img : image) r c :
  image_shape H W C img -> (r < H)%nat -> (c < W)%nat ->
  exists p, cell img r c = Some p /\ length p = C.
Proof.
  intros [Hrect Hpx] Hr Hc.
  destruct (rect_row H W img r Hrect Hr) as (row & Hrow & Hlen).
  destruct (lookup_lt_is_Some_2 row c) as [p Hp]; [lia |].
  exists p. unfold cell. rewrite Hrow. split; [exact Hp |].
  pose proof (Forall_lookup_1 _ _ _ _ Hpx Hrow) as Hprow.
  exact (Forall_lookup_1 _ _ _ _ Hprow Hp).
Qed.

Lemma no_channels_cell (a : image) (p : list Z) :
  cell a 0 0 = Some p -> (1 <= length p)%nat -> no_channels a = false.
Proof.
  intros Hp Hlen. destruct a as [| [| q row] a]; try discriminate.
  cbn in Hp. injection Hp as ->. cbn. apply Nat.eqb_neq. lia.
Qed.

Lemma fold_left_add_sum (l : list Z) (acc : Z) :
  fold_left Z.add l acc = acc + sum_list l.
Proof.
  unfold sum_list.
  revert acc. induction l as [| x l IH]; intros acc; cbn; [lia |].
  rewrite IH. lia.
Qed.

Lemma sum_list_zip_add (l k : list Z) :
  length l = length k ->
  sum_list (zip_with Z.add l k) = sum_list l + sum_list k.
Proof.
  unfold sum_list.
  revert k. induction l as [| x l IH]; intros [| y k] Hlen; cbn in *;
    try lia.
  rewrite IH by lia. lia.
Qed.

Lemma sum_squares_sub (p q : list Z) :
  sum_list (map (fun v => v ^ 2) (zip_with Z.sub q p))
  = squared_difference p q.
Proof.
  unfold squared_difference, sum_list.
  revert q. induction p as [| x p IH]; intros [| y q]; try reflexivity.
  cbn [zip_with map fold_right]. rewrite IH. ring.
Qed.

(** The sum of the channels in the dtype is the sum of the integers,
    wrapped. *)
Lemma fold_dtype_add (d : dtype) (l : list Z) : forall acc,
  wrap d acc = acc ->
  fold_left (dtype_add d) l acc = wrap d (acc + sum_list l).
Proof.
  induction l as [| x l IH]; intros acc Hacc.
  - cbn. now rewrite Z.add_0_r.
  - cbn [fold_left]. rewrite IH by apply wrap_wrap.
    apply wrap_congr. unfold dtype_add, sum_list. cbn [fold_right].
    fold (sum_list l).
    rewrite Zplus_mod, wrap_mod, <- Zplus_mod. f_equal. lia.
Qed.

Lemma sum_list_mod (d : dtype) (l l' : list Z) :
  Forall2 (fun x y => x mod 2 ^ bits d = y mod 2 ^ bits d) l l' ->
  sum_list l mod 2 ^ bits d = sum_list l' mod 2 ^ bits d.
Proof.
  unfold sum_list. induction 1 as [| x y l l' Hxy _ IH]; [reflexivity |].
  cbn [fold_right]. now rewrite Zplus_mod, Hxy, IH, <- Zplus_mod.
Qed.

Lemma squares_mod (d : dtype) (p : list Z) : forall q,
  Forall2 (fun x y => x mod 2 ^ bits d = y mod 2 ^ bits d)
    (map (dtype_square d) (zip_with (dtype_sub d) q p))
    (map (fun v => v ^ 2) (zip_with Z.sub q p)).
Proof.
  induction p as [| x p IH]; intros [| y q]; cbn; try constructor.
  - apply dtype_square_mod, dtype_sub_mod.
  - apply IH.
Qed.

Lemma zip_add_mod (d : dtype) (l1 l1' l2 l2' : list Z) :
  Forall2 (fun x y => x mod 2 ^ bits d = y mod 2 ^ bits d) l1 l1' ->
  Forall2 (fun x y => x mod 2 ^ bits d = y mod 2 ^ bits d) l2 l2' ->
  Forall2 (fun x y => x mod 2 ^ bits d = y mod 2 ^ bits d)
    (zip_with (dtype_add d) l1 l2) (zip_with Z.add l1' l2').
Proof.
  intros H1. revert l2 l2'.
  induction H1 as [| x x' l1 l1' Hx _ IH]; intros l2 l2' H2;
    destruct H2 as [| y y' l2 l2' Hy H2]; cbn; try constructor.
  - now apply dtype_add_mod.
  - now apply IH.
Qed.

(** The energy of one pixel from its four neighbours. *)
Lemma pixel_energy (d : dtype) (C : nat) (west east north south : list Z) :
  length west = C -> length east = C ->
  length north = C -> length south = C ->
  fold_left (dtype_add d)
    (zip_with (dtype_add d)
       (map (dtype_square d) (zip_with (dtype_sub d) east west))
       (map (dtype_square d) (zip_with (dtype_sub d) south north))) 0
  = wrap d (squared_difference west east + squared_difference north south).
Proof.
  intros Hw He Hn Hs. rewrite fold_dtype_add by apply wrap_0.
  apply wrap_congr. rewrite Z.add_0_l.
  rewrite (sum_list_mod d _ _
             (zip_add_mod d _ _ _ _ (squares_mod d west east)
                (squares_mod d north south))).
  rewrite sum_list_zip_add.
  - now rewrite !sum_squares_sub.
  - rewrite !length_map, !length_zip_with. lia.
Qed.

(** The four neighbours of a pixel, with wrap-around at the edges. *)
Lemma neighbour_index (n : nat) (z : Z) :
  (1 <= n)%nat -> (Z.to_nat (z mod Z.of_nat n) < n)%nat.
Proof.
  intros Hn. pose proof (Z.mod_pos_bound z (Z.of_nat n) ltac:(lia)). lia.
Qed.

Lemma energy_map_cells (d : dtype) (H W C : nat) (img : image) :
  (1 <= H)%nat -> (1 <= W)%nat -> (1 <= C)%nat ->
  image_shape H W C img ->
  exists energy,
    energy_map d img = Ok energy /\
    rect H W energy /\
    forall r c, (r < H)%nat -> (c < W)%nat ->
      exists west east north south,
        cell img r (Z.to_nat ((Z.of_nat c - 1) mod Z.of_nat W)) = Some west /\
        cell img r (Z.to_nat ((Z.of_nat c + 1) mod Z.of_nat W)) = Some east /\
        cell img (Z.to_nat ((Z.of_nat r - 1) mod Z.of_nat H)) c = Some north /\
        cell img (Z.to_nat ((Z.of_nat r + 1) mod Z.of_nat H)) c = Some south /\
        cell energy r c
        = Some (wrap d (squared_difference west east
                        + squared_difference north south)).
Proof.
  intros HH HW HC Hshape. pose proof Hshape as [Hrect _].
  set (x_0 := map (roll (-1)) img). set (x_1 := map (roll 1) img).
  set (y_0 := roll (-1) img). set (y_1 := roll 1 img).
  set (total := elementwise (dtype_add d)
                  (square d (elementwise (dtype_sub d) x_0 x_1))
                  (square d (elementwise (dtype_sub d) y_0 y_1))).
  assert (Hcells : forall r c, (r < H)%nat -> (c < W)%nat ->
    exists west east north south,
      cell img r (Z.to_nat ((Z.of_nat c - 1) mod Z.of_nat W)) = Some west /\
      cell img r (Z.to_nat ((Z.of_nat c + 1) mod Z.of_nat W)) = Some east /\
      cell img (Z.to_nat ((Z.of_nat r - 1) mod Z.of_nat H)) c = Some north /\
      cell img (Z.to_nat ((Z.of_nat r + 1) mod Z.of_nat H)) c = Some south /\
      length west = C /\ length east = C /\
      length north = C /\ length south = C /\
      cell total r c
      = Some (zip_with (dtype_add d)
                (map (dtype_square d) (zip_with (dtype_sub d) east west))
                (map (dtype_square d) (zip_with (dtype_sub d) south north)))).
  { intros r c Hr Hc.
    destruct (image_shape_cell H W C img r
                (Z.to_nat ((Z.of_nat c - 1) mod Z.of_nat W)) Hshape Hr)
      as (west & Hwest & Hlw); [now apply neighbour_index |].
    destruct (image_shape_cell H W C img r
                (Z.to_nat ((Z.of_nat c + 1) mod Z.of_nat W)) Hshape Hr)
      as (east & Heast & Hle); [now apply neighbour_index |].
    destruct (image_shape_cell H W C img
                (Z.to_nat ((Z.of_nat r - 1) mod Z.of_nat H)) c Hshape)
      as (north & Hnorth & Hln); [now apply neighbour_index | exact Hc |].
    destruct (image_shape_cell H W C img
                (Z.to_nat ((Z.of_nat r + 1) mod Z.of_nat H)) c Hshape)
      as (south & Hsouth & Hls); [now apply neighbour_index | exact Hc |].
    exists west, east, north, south.
    repeat (split; [assumption |]).
    assert (Hx0 : cell x_0 r c = Some east).
    { unfold x_0. rewrite (cell_roll_columns H W) by assumption.
      now replace (Z.of_nat c - -1) with (Z.of_nat c + 1) by lia. }
    assert (Hx1 : cell x_1 r c = Some west).
    { unfold x_1. now rewrite (cell_roll_columns H W) by assumption. }
    assert (Hy0 : cell y_0 r c = Some south).
    { unfold y_0. rewrite (cell_roll_rows H W) by assumption.
      now replace (Z.of_nat r - -1) with (Z.of_nat r + 1) by lia. }
    assert (Hy1 : cell y_1 r c = Some north).
    { unfold y_1. now rewrite (cell_roll_rows H W) by assumption. }
    unfold total, elementwise, square.
    apply cell_zip_with.
    - rewrite cell_map.
      now rewrite (cell_zip_with _ _ _ _ _ _ _ Hx0 Hx1).
    - rewrite cell_map.
      now rewrite (cell_zip_with _ _ _ _ _ _ _ Hy0 Hy1). }
  assert (Hcount : no_channels total = false).
  { destruct (Hcells 0%nat 0%nat) as
      (west & east & north & south & _ & _ & _ & _
       & Hlw & Hle & Hln & Hls & Htotal); [lia | lia |].
    apply (no_channels_cell _ _ Htotal).
    rewrite length_zip_with, !length_map, !length_zip_with. lia. }
  exists (map (map (fun p => fold_left (dtype_add d) p 0)) total). split.
  { unfold energy_map, dual_gradient_energy, sum_channels.
    fold x_0 x_1 y_0 y_1. fold total. now rewrite Hcount. }
  split.
  { apply rect_map. unfold total, elementwise, square.
    apply rect_zip_with; apply rect_map; apply rect_zip_with;
      first [now apply rect_roll_columns | now apply rect_roll_rows]. }
  intros r c Hr Hc.
  destruct (Hcells r c Hr Hc) as
    (west & east & north & south & Hwest & Heast & Hnorth & Hsouth
     & Hlw & Hle & Hln & Hls & Htotal).
  exists west, east, north, south.
  repeat (split; [assumption |]).
  rewrite cell_map, Htotal. cbn [fmap option_fmap option_map]. f_equal.
  now apply (pixel_energy d C).
Qed.




(** ** Resizing *)

(** One turn of the loop removes one column. *)
Lemma carve_shape (d : dtype) (H W C : nat) (img : image) :
  (1 <= H)%nat -> (1 <= W)%nat -> (1 <= C)%nat ->
  image_shape H W C img ->
  exists img', carve d img = Ok img' /\ image_shape H (W - 1) C img'.
Proof.
  intros HH HW HC Hshape.
  destruct (energy_map_cells d H W C img HH HW HC Hshape)
    as (energy & Hmap & Hen & _).
  destruct (pipeline_seam H W energy HH HW Hen)
    as (P & E & end_x & seam & Hcum & Hend & Hseam & Hlen & Hall & _).
  destruct (remove_seam_shape H W C img seam Hshape Hlen Hall)
    as (img' & Hrm & Hshape').
  exists img'. split; [| exact Hshape'].
  unfold carve. rewrite Hmap. cbn [bind]. rewrite Hcum. cbn [bind].
  rewrite Hend. cbn [bind]. rewrite Hseam. exact Hrm.
Qed.

(** [n] turns of the loop, for [n] up to the width. *)
Lemma carve_loop (d : dtype) (H C : nat) (turns : list nat) :
  forall (W : nat) img,
  (1 <= H)%nat -> (1 <= C)%nat -> (length turns <= W)%nat ->
  image_shape H W C img ->
  exists img',
    for_each (fun img _ => carve d img) turns img = Ok img' /\
    image_shape H (W - length turns) C img'.
Proof.
  induction turns as [| t turns IH]; intros W img HH HC Hn Hshape.
  - exists img. cbn. split; [reflexivity |].
    now replace (W - 0)%nat with W by lia.
  - cbn [length] in Hn.
    destruct (carve_shape d H W C img HH ltac:(lia) HC Hshape)
      as (img1 & Hcarve & Hshape1).
    destruct (IH (W - 1)%nat img1 HH HC ltac:(lia) Hshape1)
      as (img' & Hloop & Hshape').
    exists img'. split.
    + cbn [for_each]. rewrite Hcarve. exact Hloop.
    + cbn [length]. now replace (W - S (length turns))%nat
        with (W - 1 - length turns)%nat by lia.
Qed.

Lemma resize_image_shape (d : dtype) (H W C : nat) (img : image) (K : Z) :
  (1 <= H)%nat -> (1 <= C)%nat -> 0 <= K <= Z.of_nat W ->
  image_shape H W C img ->
  exists img',
    resize_image d img K = Ok img' /\
    image_shape H (W - Z.to_nat K) C img'.
Proof.
  intros HH HC HK Hshape.
  destruct (carve_loop d H C (seq 0 (Z.to_nat K)) W img HH HC) as
    (img' & Hloop & Hshape'); [rewrite length_seq; lia | exact Hshape |].
  rewrite length_seq in Hshape'. exists img'.
  split; [exact Hloop | exact Hshape'].
Qed.

(** C6.  For an image of height [H >= 1] and width [W >= 1] (of at least
    one channel) and a count [K] with [0 <= K < W], [resize_image]
    returns an image of width [W - K] with the height and the channels of
    the input; with [K = W - 1] the result is one column wide. *)
Theorem resize_image_width (d : dtype) (H W C : nat) (img : image) (K : Z) :
  (1 <= H)%nat -> (1 <= W)%nat -> (1 <= C)%nat ->
  image_shape H W C img -> 0 <= K < Z.of_nat W ->
  (exists img',
     resize_image d img K = Ok img' /\
     image_shape H (W - Z.to_nat K) C img') /\
  (exists img1,
     resize_image d img (Z.of_nat W - 1) = Ok img1 /\
     image_shape H 1 C img1).
Proof.
  intros HH HW HC Hshape HK. split.
  - apply resize_image_shape; [exact HH | exact HC | lia | exact Hshape].
  - destruct (resize_image_shape d H W C img (Z.of_nat W - 1) HH HC)
      as (img1 & Hrun & Hshape1); [lia | exact Hshape |].
    exists img1. split; [exact Hrun |].
    now replace (W - Z.to_nat (Z.of_nat W - 1))%nat with 1%nat in Hshape1
      by lia.
Qed.

Lemma resize_image_width_witness :
  exists img',
    resize_image UInt8 [[[1]; [2]; [3]]; [[4]; [5]; [6]]; [[7]; [8]; [9]]] 2
    = Ok img' /\
    image_shape 3 1 1 img'.
Proof.
  destruct (resize_image_width UInt8 3 3 1
              [[[1]; [2]; [3]]; [[4]; [5]; [6]]; [[7]; [8]; [9]]] 2)
    as [(img' & H1 & H2) _].
  - lia.
  - lia.
  - lia.
  - apply image_shape_concrete; reflexivity.
  - lia.
  - exists img'. auto.
Defined.

(** An exception ends the loop. *)
Lemma for_each_app {S A} (body : S -> A -> result S) (xs ys : list A) s :
  for_each body (xs ++ ys) s
  = let* s' := for_each body xs s in for_each body ys s'.
Proof.
  revert s. induction xs as [| x xs IH]; intros s; cbn; [reflexivity |].
  destruct (body s x) as [s1 | e |]; cbn; [apply IH | reflexivity ..].
Qed.

(** An image without columns. *)
Lemma no_channels_empty (H : nat) (a : image) :
  rect H 0 a -> no_channels a = false.
Proof.
  intros [_ Hall]. destruct a as [| [| p row] a]; try reflexivity.
  inversion Hall as [| ? ? Hrow _]. discriminate Hrow.
Qed.

Lemma energy_map_empty (d : dtype) (H : nat) (img : image) :
  rect H 0 img ->
  exists energy, energy_map d img = Ok energy /\ rect H 0 energy.
Proof.
  intros Hrect.
  set (total := elementwise (dtype_add d)
                  (square d (elementwise (dtype_sub d) (map (roll (-1)) img)
                               (map (roll 1) img)))
                  (square d (elementwise (dtype_sub d) (roll (-1) img)
                               (roll 1 img)))).
  assert (Htotal : rect H 0 total).
  { unfold total, elementwise, square.
    apply rect_zip_with; apply rect_map; apply rect_zip_with;
      first [now apply rect_roll_columns | now apply rect_roll_rows]. }
  exists (map (map (fun p => fold_left (dtype_add d) p 0)) total). split.
  - unfold energy_map, dual_gradient_energy, sum_channels. fold total.
    now rewrite (no_channels_empty H total Htotal).
  - now apply rect_map.
Qed.

(** With no column left the last row of the table is empty, and the [min]
    of [seam_end] has no first element to take. *)
Lemma carve_empty (d : dtype) (H : nat) (img : image) :
  (1 <= H)%nat -> rect H 0 img -> carve d img = Raise StopIteration.
Proof.
  intros HH Hrect.
  destruct (energy_map_empty d H img Hrect) as (energy & Hmap & Hen).
  destruct (cumulative_energy_tables H 0 energy HH Hen)
    as (P & E & Hcum & _ & HE & _).
  destruct (rect_row H 0 E (H - 1) HE) as (row & Hrow & Hlen); [lia |].
  destruct row; [| discriminate Hlen].
  unfold carve. rewrite Hmap. cbn [bind]. rewrite Hcum. cbn [bind].
  assert (Hend : seam_end E = Raise StopIteration).
  { unfold seam_end. destruct HE as [HL _].
    assert (Hget : load_int E (-1) = Ok []).
    { unfold load_int. rewrite HL. zbool. apply load_Ok.
      now replace (Z.to_nat (-1 + Z.of_nat H)) with (H - 1)%nat by lia. }
    now rewrite Hget. }
  now rewrite Hend.
Qed.

Lemma resize_image_nonpositive (d : dtype) (img : image) (K : Z) :
  K <= 0 -> resize_image d img K = Ok img.
Proof.
  intros HK. unfold resize_image.
  now replace (Z.to_nat K) with 0%nat by lia.
Qed.

Lemma resize_image_beyond_width (d : dtype) (H W C : nat) (img : image)
    (K : Z) :
  (1 <= H)%nat -> (1 <= C)%nat -> image_shape H W C img ->
  Z.of_nat W < K -> resize_image d img K = Raise StopIteration.
Proof.
  intros HH HC Hshape HK. unfold resize_image.
  replace (Z.to_nat K) with (W + S (Z.to_nat K - W - 1))%nat by lia.
  rewrite seq_app, for_each_app.
  destruct (carve_loop d H C (seq 0 W) W img HH HC) as
    (img' & Hloop & Hshape'); [rewrite length_seq; lia | exact Hshape |].
  rewrite Hloop. cbn [bind seq for_each].
  rewrite length_seq, Nat.sub_diag in Hshape'. destruct Hshape' as [Hrect _].
  now rewrite (carve_empty d H img' HH Hrect).
Qed.

(** C7, as the code has it.  [resize_image] does not check the count:
    a negative count returns the image as it is; a count equal to the width
    returns an image without columns, of the same height; a count greater
    than the width fails, with the [StopIteration] that the [min] of
    [seam_end] raises on the empty row that is left once every column is
    gone. *)
Theorem resize_image_count (d : dtype) (H W C : nat) (img : image) (K : Z) :
  (1 <= H)%nat -> (1 <= W)%nat -> (1 <= C)%nat ->
  image_shape H W C img ->
  (K < 0 -> resize_image d img K = Ok img) /\
  (K = Z.of_nat W ->
   exists img', resize_image d img K = Ok img' /\ image_shape H 0 C img') /\
  (Z.of_nat W < K -> resize_image d img K = Raise StopIteration).
Proof.
  intros HH HW HC Hshape. split; [| split].
  - intros HK. apply resize_image_nonpositive. lia.
  - intros ->.
    destruct (resize_image_shape d H W C img (Z.of_nat W) HH HC)
      as (img' & Hrun & Hshape'); [lia | exact Hshape |].
    exists img'. split; [exact Hrun |].
    now replace (W - Z.to_nat (Z.of_nat W))%nat with 0%nat in Hshape' by lia.
  - now apply (resize_image_beyond_width d H W C).
Qed.

Lemma resize_image_count_witness :
  resize_image UInt8 [[[1]; [2]]; [[3]; [4]]] 3 = Raise StopIteration.
Proof.
  destruct (resize_image_count UInt8 2 2 1 [[[1]; [2]]; [[3]; [4]]] 3)
    as (_ & _ & H3).
  - lia.
  - lia.
  - lia.
  - apply image_shape_concrete; reflexivity.
  - apply H3. lia.
Defined.

(** C7 as stated fails: with a count equal to the width, and with a
    negative one, [resize_image] returns an image. *)
Lemma resize_image_full_width_returns :
  resize_image UInt8 [[[1]]] (Z.of_nat (width [[[1]]])) = Ok [[]] /\
  resize_image UInt8 [[[1]]] (-1) = Ok [[[1]]] /\
  ~ (forall (d : dtype) (img : image) (K : Z),
       K < 0 \/ Z.of_nat (width img) <= K ->
       exists e, resize_image d img K = Raise e).
Proof.
  split; [reflexivity |]. split; [reflexivity |].
  intros Hfails. destruct (Hfails UInt8 [[[1]]] 1) as [e He].
  - right. cbn. lia.
  - discriminate He.
Qed.

(** C8, as the code has it.  [resize_image] does not check the
    dimensions: with a count of at most 0 it returns the image as it is,
    whatever its dimensions; with a count of at least 1 and an image that
    has rows and no column it fails with the [StopIteration] that the
    [min] of [seam_end] raises on the empty last row. *)
Theorem resize_image_dimension (d : dtype) (img : image) (K : Z) :
  (K <= 0 -> resize_image d img K = Ok img) /\
  (1 <= K -> forall H, (1 <= H)%nat -> rect H 0 img ->
   resize_image d img K = Raise StopIteration).
Proof.
  split; [apply resize_image_nonpositive |].
  intros HK H HH Hrect. unfold resize_image.
  replace (Z.to_nat K) with (S (Z.to_nat K - 1)) by lia.
  cbn [seq for_each]. now rewrite (carve_empty d H img HH Hrect).
Qed.

Lemma resize_image_dimension_witness :
  resize_image UInt8 [[]; []] 0 = Ok [[]; []] /\
  resize_image UInt8 [[]; []] 1 = Raise StopIteration.
Proof.
  split.
  - destruct (resize_image_dimension UInt8 [[]; []] 0) as (H1 & _).
    apply H1. lia.
  - destruct (resize_image_dimension UInt8 [[]; []] 1) as (_ & H2).
    apply (H2 ltac:(lia) 2%nat); [lia |].
    apply rect_concrete; reflexivity.
Defined.

(** C8 as stated fails: with a count of 0, [resize_image] returns an image
    without rows, or without columns, as it is. *)
Lemma resize_image_empty_returns :
  resize_image UInt8 [] 0 = Ok [] /\
  resize_image UInt8 [[]; []] 0 = Ok [[]; []] /\
  ~ (forall (d : dtype) (img : image) (K : Z),
       height img = 0%nat \/ width img = 0%nat ->
       exists e, resize_image d img K = Raise e).
Proof.
  split; [reflexivity |]. split; [reflexivity |].
  intros Hfails. destruct (Hfails UInt8 [] 0) as [e He].
  - left. reflexivity.
  - discriminate He.
Qed.





(** ** Outcomes of [seam_end] on any table that has a row *)

(** X3.  [seam_end] on a table with at least one row, whatever the widths:
    on an empty last row the [min] raises [StopIteration]; otherwise the
    result is the leftmost column of the least entry of the last row. *)
Theorem seam_end_outcomes (energy_totals : grid) (row : list Z) :
  last energy_totals = Some row ->
  match row with
  | [] => seam_end energy_totals = Raise StopIteration
  | _ :: _ =>
      exists (k : nat) (m : Z),
        seam_end energy_totals = Ok (Z.of_nat k) /\
        row !! k = Some m /\
        (forall c v, row !! c = Some v -> m <= v) /\
        (forall c, row !! c = Some m -> (k <= c)%nat)
  end.
Proof.
  destruct energy_totals as [| r0 t _] using rev_ind; [discriminate |].
  rewrite last_snoc. intros [= ->].
  unfold seam_end. rewrite load_int_last. cbn [bind].
  destruct row as [| v0 row]; [reflexivity |].
  destruct (builtin_min_spec (v0 :: row) ltac:(discriminate))
    as (m & Hmin & Hm & Hleast).
  destruct (first_index_elem (v0 :: row) m Hm) as [k Hk].
  destruct (first_index_Some (v0 :: row) m k Hk) as [Hkm Hfirst].
  exists k, m. rewrite Hmin. cbn [bind]. unfold list_index. rewrite Hk.
  split; [reflexivity |]. split; [exact Hkm |]. split; [| exact Hfirst].
  intros c v Hv. apply Hleast. apply list_elem_of_lookup. now exists c.
Qed.

Lemma seam_end_outcomes_witness :
  seam_end [[1; 2]; []] = Raise StopIteration /\
  exists (k : nat) (m : Z),
    seam_end [[1]; [4; 2; 2]] = Ok (Z.of_nat k) /\ [4; 2; 2] !! k = Some m.
Proof.
  split.
  - exact (seam_end_outcomes [[1; 2]; []] [] eq_refl).
  - destruct (seam_end_outcomes [[1]; [4; 2; 2]] [4; 2; 2] eq_refl)
      as (k & m & H1 & H2 & _).
    exists k, m. auto.
Defined.

Lemma getitem_outcomes {A} (a : list A) (i : nat) :
  getitem a i = Raise IndexError \/ exists x, getitem a i = Ok x.
Proof. unfold getitem. destruct (a !! i); eauto. Qed.

(** ** Outcomes of [remove_seam] on any seam *)

Lemma comprehension_raise {A B} (f : A -> result B) (e : exn) (xs : list A) :
  (forall x, x ∈ xs -> (exists y, f x = Ok y) \/ f x = Raise e) ->
  (exists x, x ∈ xs /\ f x = Raise e) ->
  comprehension f xs = Raise e.
Proof.
  induction xs as [| x xs IH]; intros Hall (x0 & Hx0 & Hraise).
  - inversion Hx0.
  - cbn [comprehension].
    destruct (Hall x ltac:(apply elem_of_cons; now left)) as [[y Hy] | Hy];
      [| now rewrite Hy].
    rewrite Hy. cbn [bind].
    apply elem_of_cons in Hx0 as [-> | Hx0]; [congruence |].
    rewrite IH; [reflexivity | |].
    + intros z Hz. apply Hall. apply elem_of_cons. now right.
    + now exists x0.
Qed.

Lemma comprehension_inv {A B} (f : A -> result B) (xs : list A) :
  forall ys, comprehension f xs = Ok ys ->
  Forall2 (fun x y => f x = Ok y) xs ys.
Proof.
  induction xs as [| x xs IH]; intros ys Hrun; cbn in Hrun.
  - injection Hrun as <-. constructor.
  - apply bind_inv in Hrun as (y & Hy & Hrun).
    apply bind_inv in Hrun as (ys' & Hys & [= <-]).
    constructor; [exact Hy | now apply IH].
Qed.

(** [np.delete] with an index counted from either end. *)
Lemma np_delete_wrap {A} (a : list A) (k : Z) :
  - Z.of_nat (length a) <= k < Z.of_nat (length a) ->
  np_delete a k
  = Ok (take (Z.to_nat (k mod Z.of_nat (length a))) a
        ++ drop (S (Z.to_nat (k mod Z.of_nat (length a)))) a).
Proof.
  intros Hk. unfold np_delete.
  set (n := Z.of_nat (length a)) in *.
  assert (Hmod : k mod n = if k <? 0 then k + n else k).
  { destruct (Z.ltb_spec k 0).
    - symmetry. apply (Z.mod_unique_pos _ _ (-1)); lia.
    - apply Z.mod_small. lia. }
  rewrite Hmod. now zbool.
Qed.

Lemma np_delete_out_of_range {A} (a : list A) (k : Z) :
  k < - Z.of_nat (length a) \/ Z.of_nat (length a) <= k ->
  np_delete a k = Raise IndexError.
Proof. intros Hk. unfold np_delete. now zbool. Qed.

Lemma np_delete_inv {A} (a b : list A) (k : Z) :
  np_delete a k = Ok b ->
  exists i, (i < length a)%nat /\ b = take i a ++ drop (S i) a.
Proof.
  unfold np_delete.
  destruct ((k <? - Z.of_nat (length a)) || (Z.of_nat (length a) <=? k))
    eqn:E; [discriminate |].
  apply orb_false_iff in E as [E1 E2].
  apply Z.ltb_ge in E1. apply Z.leb_gt in E2.
  intros [= <-]. eexists. split; [| reflexivity].
  destruct (Z.ltb_spec k 0); lia.
Qed.

(** X5.  [remove_seam] on an [H]-by-[W] image and any seam: it returns exactly
    when the seam has an entry for every row and every such entry lies in
    [-W, W-1], a negative entry counting columns from the right; it then
    deletes column [seam[r] mod W] of row [r].  Otherwise it raises
    [IndexError].  Entries of the seam beyond the height are not read. *)
Theorem remove_seam_outcomes (H W : nat) (img : image) (seam : list Z) :
  rect H W img ->
  ((H <= length seam)%nat /\
   (forall r s, (r < H)%nat -> seam !! r = Some s ->
      - Z.of_nat W <= s < Z.of_nat W) ->
   exists img',
     remove_seam img seam = Ok img' /\
     rect H (W - 1) img' /\
     forall r row s, img !! r = Some row -> seam !! r = Some s ->
       img' !! r
       = Some (take (Z.to_nat (s mod Z.of_nat W)) row
               ++ drop (S (Z.to_nat (s mod Z.of_nat W))) row)) /\
  ((length seam < H)%nat \/
   (exists r s, (r < H)%nat /\ seam !! r = Some s /\
      (s < - Z.of_nat W \/ Z.of_nat W <= s)) ->
   remove_seam img seam = Raise IndexError).
Proof.
  intros Himg. pose proof Himg as [HL Hrows].
  set (f := fun row : nat =>
              let* r := getitem img row in
              let* s := getitem seam row in
              np_delete r s).
  assert (Hf : remove_seam img seam = comprehension f (seq 0 H)).
  { unfold remove_seam, height. now rewrite HL. }
  assert (Hrow : forall r, (r < H)%nat ->
            exists row, img !! r = Some row /\ length row = W /\
              f r = let* s := getitem seam r in np_delete row s).
  { intros r Hr. destruct (rect_row H W img r Himg Hr) as (row & Hrow & Hw).
    exists row. split; [exact Hrow |]. split; [exact Hw |].
    unfold f. now rewrite (getitem_Ok _ _ _ Hrow). }
  split.
  - intros [Hlen Hrange].
    set (g := fun r : nat =>
                match img !! r, seam !! r with
                | Some row, Some s =>
                    take (Z.to_nat (s mod Z.of_nat W)) row
                    ++ drop (S (Z.to_nat (s mod Z.of_nat W))) row
                | _, _ => []
                end).
    assert (Hg : forall r, (r < H)%nat ->
              exists row s, img !! r = Some row /\ seam !! r = Some s /\
                length row = W /\ - Z.of_nat W <= s < Z.of_nat W /\
                f r = Ok (g r)).
    { intros r Hr. destruct (Hrow r Hr) as (row & Himgr & Hw & Hfr).
      destruct (lookup_lt_is_Some_2 seam r) as [s Hs]; [lia |].
      pose proof (Hrange r s Hr Hs) as Hs'.
      exists row, s. repeat (split; [assumption |]).
      rewrite Hfr, (getitem_Ok _ _ _ Hs). cbn [bind].
      unfold g. rewrite Himgr, Hs. rewrite <- Hw. apply np_delete_wrap. lia. }
    exists (map g (seq 0 H)). split.
    { rewrite Hf. apply comprehension_ok. intros r Hr.
      apply elem_of_seq in Hr as [_ Hr]. cbn in Hr.
      destruct (Hg r Hr) as (_ & _ & _ & _ & _ & _ & Hfr). exact Hfr. }
    split.
    { split; [now rewrite length_map, length_seq |].
      apply Forall_forall. intros row' Hrow'.
      apply list_elem_of_fmap in Hrow' as (r & -> & Hr).
      apply elem_of_seq in Hr as [_ Hr]. cbn in Hr.
      destruct (Hg r Hr) as (row & s & Himgr & Hs & Hw & Hs' & _).
      unfold g. rewrite Himgr, Hs.
      pose proof (Z.mod_pos_bound s (Z.of_nat W) ltac:(lia)) as Hmod.
      rewrite length_app, length_take, length_drop. lia. }
    intros r row s Himgr Hs.
    assert (Hr : (r < H)%nat) by (apply lookup_lt_Some in Himgr; lia).
    rewrite list_lookup_fmap, lookup_seq_lt by exact Hr. cbn.
    unfold g. now rewrite Himgr, Hs.
  - intros Hbad. rewrite Hf. apply comprehension_raise.
    + intros r Hr. apply elem_of_seq in Hr as [_ Hr]. cbn in Hr.
      destruct (Hrow r Hr) as (row & _ & Hw & ->).
      destruct (getitem_outcomes seam r) as [-> | [s ->]]; [now right |].
      cbn [bind]. unfold np_delete.
      destruct ((s <? - Z.of_nat (length row))
                || (Z.of_nat (length row) <=? s)); [now right |].
      left. eauto.
    + destruct Hbad as [Hshort | (r & s & Hr & Hs & Hout)].
      * exists (length seam). split; [apply elem_of_seq; lia |].
        destruct (Hrow (length seam) Hshort) as (row & _ & _ & ->).
        now rewrite getitem_ge by lia.
      * exists r. split; [apply elem_of_seq; lia |].
        destruct (Hrow r Hr) as (row & _ & Hw & ->).
        rewrite (getitem_Ok _ _ _ Hs). cbn [bind].
        apply np_delete_out_of_range. lia.
Qed.

Lemma remove_seam_outcomes_witness :
  remove_seam [[[1]; [2]]; [[3]; [4]]] [-1; 0; 7] = Ok [[[1]]; [[4]]] /\
  remove_seam [[[1]; [2]]; [[3]; [4]]] [0; 2] = Raise IndexError.
Proof.
  destruct (remove_seam_outcomes 2 2 [[[1]; [2]]; [[3]; [4]]] [-1; 0; 7])
    as [Hok _]; [apply rect_concrete; reflexivity |].
  destruct (remove_seam_outcomes 2 2 [[[1]; [2]]; [[3]; [4]]] [0; 2])
    as [_ Hbad]; [apply rect_concrete; reflexivity |].
  split.
  - destruct Hok as (img' & Hrun & _).
    + split; [cbn; lia |]. intros [| [| r]] s Hr Hs; cbn in Hs;
        try lia; injection Hs as <-; lia.
    + rewrite Hrun. f_equal. vm_compute in Hrun. now injection Hrun as <-.
  - apply Hbad. right. exists 1%nat, 2. cbn. repeat split; lia.
Defined.

(** ** How removals compose, and what they keep *)

Lemma for_each_turns {S A} (g : S -> result S) (xs ys : list A) :
  length xs = length ys ->
  forall s, for_each (fun s _ => g s) xs s = for_each (fun s _ => g s) ys s.
Proof.
  revert ys. induction xs as [| x xs IH]; intros [| y ys] Hlen s;
    cbn in *; try lia; [reflexivity |].
  destruct (g s) as [s' | e |]; cbn; [apply IH; lia | reflexivity ..].
Qed.

(** X6.  Removing [K1 + K2] columns is removing [K1] columns and then [K2]
    columns from the result, exceptions included. *)
Theorem resize_image_add (d : dtype) (img : image) (K1 K2 : Z) :
  0 <= K1 -> 0 <= K2 ->
  resize_image d img (K1 + K2)
  = let* img' := resize_image d img K1 in resize_image d img' K2.
Proof.
  intros H1 H2. unfold resize_image.
  rewrite Z2Nat.inj_add by lia. rewrite seq_app, for_each_app. cbn [Nat.add].
  destruct (for_each (fun img0 _ => carve d img0) (seq 0 (Z.to_nat K1)) img)
    as [img' | e |]; cbn [bind]; [| reflexivity ..].
  apply for_each_turns. now rewrite !length_seq.
Qed.

Lemma resize_image_add_witness :
  resize_image UInt8 [[[1]; [2]; [3]]; [[4]; [5]; [6]]] (1 + 1)
  = let* img' := resize_image UInt8 [[[1]; [2]; [3]]; [[4]; [5]; [6]]] 1 in
    resize_image UInt8 img' 1.
Proof. apply resize_image_add; lia. Defined.

Lemma remove_seam_sublist (img img' : image) (seam : list Z) :
  remove_seam img seam = Ok img' -> Forall2 sublist img' img.
Proof.
  intros Hrun. apply comprehension_inv in Hrun.
  pose proof (Forall2_length _ _ _ Hrun) as Hlen. rewrite length_seq in Hlen.
  apply Forall2_same_length_lookup_2; [now symmetry |].
  intros r row' row Hrow' Hrow.
  destruct (Forall2_lookup_r _ _ _ _ _ Hrun Hrow') as (r0 & Hr0 & Hf).
  apply lookup_seq in Hr0 as [-> _]. cbn in Hf.
  rewrite (getitem_Ok _ _ _ Hrow) in Hf. cbn [bind] in Hf.
  apply bind_inv in Hf as (s & _ & Hdel).
  apply np_delete_inv in Hdel as (i & _ & ->).
  rewrite <- (take_drop i row) at 3.
  apply sublist_app; [reflexivity |].
  replace (drop (S i) row) with (drop 1 (drop i row))
    by (rewrite drop_drop; f_equal; lia).
  apply sublist_drop.
Qed.

Lemma carve_sublist (d : dtype) (img img' : image) :
  carve d img = Ok img' -> Forall2 sublist img' img.
Proof.
  unfold carve. intros Hrun.
  apply bind_inv in Hrun as (e_map & _ & Hrun).
  apply bind_inv in Hrun as ([e_paths e_totals] & _ & Hrun).
  apply bind_inv in Hrun as (end_x & _ & Hrun).
  apply bind_inv in Hrun as (seam & _ & Hrun).
  exact (remove_seam_sublist img img' seam Hrun).
Qed.

(** X7.  Whenever [resize_image] returns, the result has the rows of the input,
    each without some of its pixels: every row of the result is a
    subsequence of the same row of the input, so no pixel is changed,
    repeated, moved across rows or put out of order. *)
Theorem resize_image_sublist (d : dtype) (img img' : image) (K : Z) :
  resize_image d img K = Ok img' -> Forall2 sublist img' img.
Proof.
  unfold resize_image. generalize (seq 0 (Z.to_nat K)). intros turns.
  revert img. induction turns as [| t turns IH]; intros img Hrun; cbn in Hrun.
  - injection Hrun as <-. apply Forall2_same_length_lookup_2; [reflexivity |].
    intros i x y Hx Hy. rewrite Hx in Hy. now injection Hy as <-.
  - apply bind_inv in Hrun as (img1 & Hcarve & Hrun).
    apply carve_sublist in Hcarve. apply IH in Hrun.
    apply Forall2_same_length_lookup_2.
    + apply Forall2_length in Hcarve, Hrun. lia.
    + intros i x z Hx Hz.
      destruct (Forall2_lookup_l _ _ _ _ _ Hrun Hx) as (y & Hy & Hxy).
      pose proof (Forall2_lookup_lr _ _ _ _ _ _ Hcarve Hy Hz) as Hyz.
      now transitivity y.
Qed.

Lemma resize_image_sublist_witness :
  Forall2 sublist [[[3]]; [[6]]; [[9]]]
    [[[1]; [2]; [3]]; [[4]; [5]; [6]]; [[7]; [8]; [9]]].
Proof.
  apply (resize_image_sublist UInt8
           [[[1]; [2]; [3]]; [[4]; [5]; [6]]; [[7]; [8]; [9]]] _ 2).
  reflexivity.
Defined.

(** ** Further properties of the energy map *)

Lemma grid_ext {A} (H W : nat) (a b : list (list A)) :
  rect H W a -> rect H W b ->
  (forall r c, (r < H)%nat -> (c < W)%nat -> cell a r c = cell b r c) ->
  a = b.
Proof.
  intros Ha Hb Hcells. apply list_eq. intros r.
  destruct (decide (r < H)%nat) as [Hr | Hr].
  - destruct (rect_row H W a r Ha Hr) as (ra & Hra & Hla).
    destruct (rect_row H W b r Hb Hr) as (rb & Hrb & Hlb).
    rewrite Hra, Hrb. f_equal. apply list_eq. intros c.
    destruct (decide (c < W)%nat) as [Hc | Hc].
    + specialize (Hcells r c Hr Hc). unfold cell in Hcells.
      now rewrite Hra, Hrb in Hcells.
    + now rewrite !lookup_ge_None_2 by lia.
  - destruct Ha as [HLa _], Hb as [HLb _].
    now rewrite !lookup_ge_None_2 by lia.
Qed.

Lemma energy_map_neighbours (d : dtype) (H W C : nat) (img : image) :
  (1 <= H)%nat -> (1 <= W)%nat -> (1 <= C)%nat ->
  image_shape H W C img ->
  exists energy,
    energy_map d img = Ok energy /\
    rect H W energy /\
    forall r c, (r < H)%nat -> (c < W)%nat ->
      cell energy r c = neighbour_energy d H W img r c.
Proof.
  intros HH HW HC Hshape.
  destruct (energy_map_cells d H W C img HH HW HC Hshape)
    as (energy & Hrun & Hrect & Hcells).
  exists energy. split; [exact Hrun |]. split; [exact Hrect |].
  intros r c Hr Hc.
  destruct (Hcells r c Hr Hc)
    as (west & east & north & south & Hw & He & Hn & Hs & Hcell).
  unfold neighbour_energy. now rewrite Hw, He, Hn, Hs.
Qed.

Lemma squared_difference_self (p : list Z) : squared_difference p p = 0.
Proof.
  unfold squared_difference, sum_list.
  induction p as [| x p IH]; cbn; [reflexivity |].
  rewrite IH. replace (x - x) with 0 by lia. reflexivity.
Qed.

Lemma squared_difference_range (lo hi : Z) (p : list Z) : forall q,
  Forall (fun v => lo <= v <= hi) p -> Forall (fun v => lo <= v <= hi) q ->
  0 <= squared_difference p q <= Z.of_nat (length p) * (hi - lo) ^ 2.
Proof.
  unfold squared_difference, sum_list.
  induction p as [| x p IH]; intros q Hp Hq.
  - cbn. lia.
  - inversion Hp as [| ? ? Hx Hp']; subst.
    pose proof (Z.square_nonneg (hi - lo)) as Hsq.
    cbn [length]. rewrite Nat2Z.inj_succ, Z.pow_2_r.
    destruct q as [| y q]; [cbn [zip_with fold_right]; nia |].
    inversion Hq as [| ? ? Hy Hq']; subst.
    specialize (IH q Hp' Hq'). cbn [zip_with fold_right].
    rewrite !Z.pow_2_r in *.
    assert (H1 : 0 <= (hi - lo - (x - y)) * (hi - lo + (x - y)))
      by (apply Z.mul_nonneg_nonneg; lia).
    replace ((hi - lo - (x - y)) * (hi - lo + (x - y)))
      with ((hi - lo) * (hi - lo) - (x - y) * (x - y)) in H1 by ring.
    pose proof (Z.square_nonneg (x - y)) as H2.
    lia.
Qed.

Lemma image_cell_range (P : Z -> Prop) (img : image) r c p :
  Forall (Forall (Forall P)) img -> cell img r c = Some p -> Forall P p.
Proof.
  intros Hall Hp. unfold cell in Hp.
  destruct (img !! r) as [row |] eqn:Hrow; [| discriminate].
  pose proof (Forall_lookup_1 _ _ _ _ Hall Hrow) as Hr.
  exact (Forall_lookup_1 _ _ _ _ Hr Hp).
Qed.

Lemma image_cell_length (H W C : nat) (img : image) r c p :
  image_shape H W C img -> cell img r c = Some p -> length p = C.
Proof.
  intros [_ Hall] Hp. unfold cell in Hp.
  destruct (img !! r) as [row |] eqn:Hrow; [| discriminate].
  pose proof (Forall_lookup_1 _ _ _ _ Hall Hrow) as Hr.
  exact (Forall_lookup_1 _ _ _ _ Hr Hp).
Qed.

Lemma dtype_min_nonpos (d : dtype) : dtype_min d <= 0.
Proof.
  pose proof (modulus_pos d). pose proof (modulus_half d).
  unfold dtype_min. destruct (signed d); lia.
Qed.

(** X8.  The energies of an image whose channel values lie in [[lo, hi]] lie
    in [[0, 2 * C * (hi - lo)^2]] when the dtype of the image holds that
    bound: they are not negative, and at most [2 * C * 255^2] for channel
    values between 0 and 255 held in a 32-bit dtype. *)
Theorem energy_map_range (d : dtype) (H W C : nat) (img : image)
    (lo hi : Z) :
  (1 <= H)%nat -> (1 <= W)%nat -> (1 <= C)%nat ->
  image_shape H W C img ->
  Forall (Forall (Forall (fun v => lo <= v <= hi))) img ->
  2 * Z.of_nat C * (hi - lo) ^ 2 <= dtype_max d ->
  exists energy,
    energy_map d img = Ok energy /\
    forall r c e, cell energy r c = Some e ->
      0 <= e <= 2 * Z.of_nat C * (hi - lo) ^ 2.
Proof.
  intros HH HW HC Hshape Hrange Hfits.
  destruct (energy_map_cells d H W C img HH HW HC Hshape)
    as (energy & Hrun & Hrect & Hcells).
  exists energy. split; [exact Hrun |].
  intros r c e He.
  destruct (cell_Some_lt H W energy r c e Hrect He) as [Hr Hc].
  destruct (Hcells r c Hr Hc)
    as (west & east & north & south & Hw & He' & Hn & Hs & Hcell).
  rewrite He in Hcell. injection Hcell as ->.
  pose proof (squared_difference_range lo hi west east
                (image_cell_range _ _ _ _ _ Hrange Hw)
                (image_cell_range _ _ _ _ _ Hrange He')) as H1.
  pose proof (squared_difference_range lo hi north south
                (image_cell_range _ _ _ _ _ Hrange Hn)
                (image_cell_range _ _ _ _ _ Hrange Hs)) as H2.
  rewrite (image_cell_length H W C img _ _ _ Hshape Hw) in H1.
  rewrite (image_cell_length H W C img _ _ _ Hshape Hn) in H2.
  rewrite wrap_small; [lia |].
  pose proof (dtype_min_nonpos d). unfold in_dtype. lia.
Qed.

Lemma energy_map_range_witness :
  exists energy,
    energy_map Int32 [[[0; 255]; [255; 0]]; [[7; 7]; [0; 255]]]
    = Ok energy /\
    forall r c e, cell energy r c = Some e -> 0 <= e <= 260100.
Proof.
  destruct (energy_map_range Int32 2 2 2
              [[[0; 255]; [255; 0]]; [[7; 7]; [0; 255]]] 0 255)
    as (energy & Hrun & Hrange).
  - lia.
  - lia.
  - lia.
  - apply image_shape_concrete; reflexivity.
  - repeat constructor; lia.
  - vm_compute. intros Hgt. discriminate Hgt.
  - exists energy. split; [exact Hrun | exact Hrange].
Defined.

Lemma cell_zeros (H W : nat) r c :
  (r < H)%nat -> (c < W)%nat -> cell (zeros H W) r c = Some 0.
Proof.
  intros Hr Hc. unfold cell, zeros.
  rewrite lookup_replicate_2 by exact Hr. now apply lookup_replicate_2.
Qed.

Lemma wrap_two (n : nat) (z : Z) :
  (1 <= n <= 2)%nat -> (z - 1) mod Z.of_nat n = (z + 1) mod Z.of_nat n.
Proof.
  intros Hn. destruct (decide (n = 1%nat)) as [-> | Hne].
  - now rewrite !Z.mod_1_r.
  - replace n with 2%nat by lia.
    replace (z + 1) with (z - 1 + 1 * Z.of_nat 2) by lia.
    now rewrite Z_mod_plus_full.
Qed.

(** X9.  With wrap-around, both horizontal neighbours of a pixel are the same
    pixel when the image has one or two columns, and both vertical ones
    when it has one or two rows: the horizontal (vertical) part of the
    energy then vanishes, the energy is the other part taken in the dtype
    of the image, and an image of at most two rows and two columns has
    energy 0 everywhere. *)
Theorem energy_map_narrow (d : dtype) (H W C : nat) (img : image) :
  (1 <= H)%nat -> (1 <= W)%nat -> (1 <= C)%nat ->
  image_shape H W C img ->
  exists energy,
    energy_map d img = Ok energy /\
    ((W <= 2)%nat ->
     forall r c, (r < H)%nat -> (c < W)%nat ->
       exists north south,
         cell img (Z.to_nat ((Z.of_nat r - 1) mod Z.of_nat H)) c
         = Some north /\
         cell img (Z.to_nat ((Z.of_nat r + 1) mod Z.of_nat H)) c
         = Some south /\
         cell energy r c = Some (wrap d (squared_difference north south))) /\
    ((H <= 2)%nat ->
     forall r c, (r < H)%nat -> (c < W)%nat ->
       exists west east,
         cell img r (Z.to_nat ((Z.of_nat c - 1) mod Z.of_nat W))
         = Some west /\
         cell img r (Z.to_nat ((Z.of_nat c + 1) mod Z.of_nat W))
         = Some east /\
         cell energy r c = Some (wrap d (squared_difference west east))) /\
    ((H <= 2)%nat -> (W <= 2)%nat -> energy = zeros H W).
Proof.
  intros HH HW HC Hshape.
  destruct (energy_map_cells d H W C img HH HW HC Hshape)
    as (energy & Hrun & Hrect & Hcells).
  exists energy. split; [exact Hrun |].
  assert (Hcols : (W <= 2)%nat ->
    forall r c, (r < H)%nat -> (c < W)%nat ->
      exists north south,
        cell img (Z.to_nat ((Z.of_nat r - 1) mod Z.of_nat H)) c
        = Some north /\
        cell img (Z.to_nat ((Z.of_nat r + 1) mod Z.of_nat H)) c
        = Some south /\
        cell energy r c = Some (wrap d (squared_difference north south))).
  { intros HW2 r c Hr Hc.
    destruct (Hcells r c Hr Hc)
      as (west & east & north & south & Hw & He & Hn & Hs & Hcell).
    rewrite (wrap_two W) in Hw by lia. rewrite Hw in He.
    injection He as <-. rewrite squared_difference_self in Hcell.
    exists north, south. now rewrite Hcell. }
  assert (Hrows : (H <= 2)%nat ->
    forall r c, (r < H)%nat -> (c < W)%nat ->
      exists west east,
        cell img r (Z.to_nat ((Z.of_nat c - 1) mod Z.of_nat W))
        = Some west /\
        cell img r (Z.to_nat ((Z.of_nat c + 1) mod Z.of_nat W))
        = Some east /\
        cell energy r c = Some (wrap d (squared_difference west east))).
  { intros HH2 r c Hr Hc.
    destruct (Hcells r c Hr Hc)
      as (west & east & north & south & Hw & He & Hn & Hs & Hcell).
    rewrite (wrap_two H) in Hn by lia. rewrite Hn in Hs.
    injection Hs as <-. rewrite squared_difference_self, Z.add_0_r in Hcell.
    exists west, east. now rewrite Hcell. }
  split; [exact Hcols |]. split; [exact Hrows |].
  intros HH2 HW2. apply (grid_ext H W); [exact Hrect | apply rect_zeros |].
  intros r c Hr Hc. rewrite cell_zeros by assumption.
  destruct (Hcells r c Hr Hc)
    as (west & east & north & south & Hw & He & Hn & Hs & Hcell).
  rewrite (wrap_two W) in Hw by lia. rewrite Hw in He. injection He as <-.
  rewrite (wrap_two H) in Hn by lia. rewrite Hn in Hs. injection Hs as <-.
  now rewrite !squared_difference_self, wrap_0 in Hcell.
Qed.

Lemma energy_map_narrow_witness :
  energy_map UInt8 [[[1; 2]; [30; 4]]; [[5; 60]; [7; 8]]] = Ok (zeros 2 2).
Proof.
  destruct (energy_map_narrow UInt8 2 2 2
              [[[1; 2]; [30; 4]]; [[5; 60]; [7; 8]]])
    as (energy & Hrun & _ & _ & Hzero).
  - lia.
  - lia.
  - lia.
  - apply image_shape_concrete; reflexivity.
  - rewrite Hrun. f_equal. apply Hzero; lia.
Defined.

(** Shapes of the shifted images. *)
Lemma image_shape_roll_rows (H W C : nat) (img : image) s :
  image_shape H W C img -> image_shape H W C (roll s img).
Proof.
  intros [Hrect Hpx]. split; [now apply rect_roll_rows |].
  now apply Forall_roll.
Qed.

Lemma image_shape_roll_columns (H W C : nat) (img : image) s :
  image_shape H W C img -> image_shape H W C (map (roll s) img).
Proof.
  intros [Hrect Hpx]. split; [now apply rect_roll_columns |].
  apply Forall_fmap. eapply Forall_impl; [exact Hpx |].
  cbn. intros row Hrow. now apply Forall_roll.
Qed.

Lemma wrap_shift (n : nat) (z d s : Z) :
  (1 <= n)%nat ->
  (Z.of_nat (Z.to_nat ((z + d) mod Z.of_nat n)) - s) mod Z.of_nat n
  = (Z.of_nat (Z.to_nat ((z - s) mod Z.of_nat n)) + d) mod Z.of_nat n.
Proof.
  intros Hn.
  pose proof (Z.mod_pos_bound (z + d) (Z.of_nat n) ltac:(lia)).
  pose proof (Z.mod_pos_bound (z - s) (Z.of_nat n) ltac:(lia)).
  rewrite !Z2Nat.id by lia.
  rewrite Zminus_mod_idemp_l, Zplus_mod_idemp_l. f_equal. lia.
Qed.

(** X10.  The energy map commutes with cyclic shifts of the image, of its rows
    and of its columns: with wrap-around at the four edges no row and no
    column is a border. *)
Theorem energy_map_roll (d : dtype) (H W C : nat) (img : image) (s : Z) :
  (1 <= H)%nat -> (1 <= W)%nat -> (1 <= C)%nat ->
  image_shape H W C img ->
  exists energy,
    energy_map d img = Ok energy /\
    energy_map d (roll s img) = Ok (roll s energy) /\
    energy_map d (map (roll s) img) = Ok (map (roll s) energy).
Proof.
  intros HH HW HC Hshape. pose proof Hshape as [Hrect _].
  destruct (energy_map_neighbours d H W C img HH HW HC Hshape)
    as (energy & Hrun & Hen & Hcells).
  exists energy. split; [exact Hrun |]. split.
  - destruct (energy_map_neighbours d H W C (roll s img) HH HW HC
                (image_shape_roll_rows H W C img s Hshape))
      as (energy' & Hrun' & Hen' & Hcells').
    rewrite Hrun'. f_equal.
    apply (grid_ext H W); [exact Hen' | now apply rect_roll_rows |].
    intros r c Hr Hc. rewrite Hcells' by assumption.
    rewrite (cell_roll_rows H W) by assumption.
    rewrite Hcells by (try apply neighbour_index; assumption).
    unfold neighbour_energy.
    rewrite !(cell_roll_rows H W img)
      by (try apply neighbour_index; assumption).
    replace (Z.of_nat r - 1) with (Z.of_nat r + -1) by lia.
    rewrite !(wrap_shift H) by exact HH.
    now replace (Z.of_nat (Z.to_nat ((Z.of_nat r - s) mod Z.of_nat H)) - 1)
      with (Z.of_nat (Z.to_nat ((Z.of_nat r - s) mod Z.of_nat H)) + -1)
      by lia.
  - destruct (energy_map_neighbours d H W C (map (roll s) img) HH HW HC
                (image_shape_roll_columns H W C img s Hshape))
      as (energy' & Hrun' & Hen' & Hcells').
    rewrite Hrun'. f_equal.
    apply (grid_ext H W); [exact Hen' | now apply rect_roll_columns |].
    intros r c Hr Hc. rewrite Hcells' by assumption.
    rewrite (cell_roll_columns H W) by assumption.
    rewrite Hcells by (try apply neighbour_index; assumption).
    unfold neighbour_energy.
    rewrite !(cell_roll_columns H W img)
      by (try apply neighbour_index; assumption).
    replace (Z.of_nat c - 1) with (Z.of_nat c + -1) by lia.
    rewrite !(wrap_shift W) by exact HW.
    now replace (Z.of_nat (Z.to_nat ((Z.of_nat c - s) mod Z.of_nat W)) - 1)
      with (Z.of_nat (Z.to_nat ((Z.of_nat c - s) mod Z.of_nat W)) + -1)
      by lia.
Qed.

Lemma energy_map_roll_witness :
  exists energy,
    energy_map UInt8 [[[1]; [2]; [3]]; [[4]; [5]; [6]]; [[7]; [8]; [9]]]
    = Ok energy /\
    energy_map UInt8
      (roll 1 [[[1]; [2]; [3]]; [[4]; [5]; [6]]; [[7]; [8]; [9]]])
    = Ok (roll 1 energy).
Proof.
  destruct (energy_map_roll UInt8 3 3 1
              [[[1]; [2]; [3]]; [[4]; [5]; [6]]; [[7]; [8]; [9]]] 1)
    as (energy & H1 & H2 & _).
  - lia.
  - lia.
  - lia.
  - apply image_shape_concrete; reflexivity.
  - exists energy. auto.
Defined.

(** ** Ties: constant energies and uniform images *)

Lemma constant_row (W : nat) (row : list Z) (v : Z) :
  length row = W ->
  (forall j x, row !! j = Some x -> x = v) ->
  row = replicate W v.
Proof.
  intros Hlen Hall. apply list_eq. intros j.
  destruct (decide (j < W)%nat) as [Hj | Hj].
  - rewrite lookup_replicate_2 by exact Hj.
    destruct (lookup_lt_is_Some_2 row j) as [x Hx]; [lia |].
    rewrite Hx. f_equal. now apply (Hall j).
  - rewrite lookup_ge_None_2 by lia. symmetry.
    apply lookup_replicate_None. lia.
Qed.

Lemma rect_replicate {A} (H W : nat) (x : A) :
  rect H W (replicate H (replicate W x)).
Proof.
  split; [apply length_replicate |].
  apply Forall_replicate, length_replicate.
Qed.

Lemma cell_replicate {A} (H W : nat) (x : A) r c :
  (r < H)%nat -> (c < W)%nat ->
  cell (replicate H (replicate W x)) r c = Some x.
Proof.
  intros Hr Hc. unfold cell.
  rewrite lookup_replicate_2 by exact Hr. now apply lookup_replicate_2.
Qed.

(** The tables of a constant energy grid. *)
Lemma constant_energy_tables (H W : nat) (k : Z) (paths pe : grid) :
  (1 <= H)%nat -> (1 <= W)%nat ->
  cumulative_energy (replicate H (replicate W k)) = Ok (paths, pe) ->
  rect H W paths /\ rect H W pe /\
  (forall i, (i < H)%nat -> exists v, pe !! i = Some (replicate W v)) /\
  (forall i, (1 <= i < H)%nat -> cell paths i 0 = Some 0).
Proof.
  intros HH HW Hrun.
  destruct (cumulative_energy_tables H W _ HH (rect_replicate H W k))
    as (P & E & Hrun' & HP & HE & Hrow0 & _ & Hdone).
  rewrite Hrun in Hrun'. injection Hrun' as <- <-.
  split; [exact HP |]. split; [exact HE |].
  assert (Hrows : forall i, (i < H)%nat ->
            exists v, pe !! i = Some (replicate W v)).
  { induction i as [| i IH]; intros Hi.
    - exists (int64 k). rewrite Hrow0, lookup_replicate_2 by lia. cbn.
      now rewrite fmap_replicate.
    - destruct (IH ltac:(lia)) as [v IHv].
      destruct (rect_row H W pe (S i) HE Hi) as (row & Hrow & Hlen).
      exists (int64 (k + v)).
      rewrite Hrow. f_equal. apply constant_row; [exact Hlen |].
      intros j x Hx.
      assert (Hj : (j < W)%nat) by (apply lookup_lt_Some in Hx; lia).
      destruct (Hdone (S i) j ltac:(lia) Hj)
        as (prev & c & m & e & Hprev & (_ & Hm & _) & He & Hsum & _).
      replace (S i - 1)%nat with i in Hprev by lia.
      rewrite IHv in Hprev. injection Hprev as <-.
      apply lookup_replicate_1 in Hm as [-> _].
      rewrite cell_replicate in He by assumption. injection He as <-.
      unfold cell in Hsum. rewrite Hrow, Hx in Hsum. now injection Hsum. }
  split; [exact Hrows |].
  intros i Hi.
  destruct (Hdone i 0%nat Hi ltac:(lia))
    as (prev & c & m & e & Hprev & ([Hc HcW] & Hm & _ & Hleft) & _ & _ & Hoff).
  destruct (Hrows (i - 1)%nat ltac:(lia)) as [v Hv].
  rewrite Hv in Hprev. injection Hprev as <-.
  assert (Hc0 : (c <= 0)%nat).
  { apply Hleft; [unfold in_window; lia |].
    apply lookup_replicate_1 in Hm as [-> _].
    apply lookup_replicate_2. lia. }
  rewrite Hoff. f_equal. lia.
Qed.

Lemma constant_energy_pipeline (H W : nat) (k : Z) :
  (1 <= H)%nat -> (1 <= W)%nat ->
  exists paths pe,
    cumulative_energy (replicate H (replicate W k)) = Ok (paths, pe) /\
    seam_end pe = Ok 0 /\
    find_seam paths 0 = Ok (replicate H 0).
Proof.
  intros HH HW.
  destruct (cumulative_energy_tables H W _ HH (rect_replicate H W k))
    as (P & E & Hrun & _).
  destruct (constant_energy_tables H W k P E HH HW Hrun)
    as (HP & HE & Hrows & Hcol0).
  destruct (cumulative_energy_offsets H W _ P E HH (rect_replicate H W k) Hrun)
    as (_ & _ & Hoff).
  assert (Hgrid : offsets_in_grid W P).
  { intros i j o Hi Hc. now apply (Hoff i j o Hi Hc). }
  exists P, E. split; [exact Hrun |]. split.
  - destruct (seam_end_leftmost H W E HH HW HE)
      as (end_x & last_row & m & Hend & Hlast & _ & Hm & _ & Hleft).
    destruct (Hrows (H - 1)%nat ltac:(lia)) as [v Hv].
    rewrite Hv in Hlast. injection Hlast as <-.
    assert (Hx : (end_x <= 0)%nat).
    { apply Hleft. apply lookup_replicate_1 in Hm as [-> _].
      apply lookup_replicate_2. lia. }
    rewrite Hend. f_equal. lia.
  - destruct (find_seam_ok H W P 0 HH HP Hgrid)
      as (seam & Hseam & Hlen & _ & Hbottom & Hchain); [lia |].
    rewrite Hseam. f_equal.
    assert (Hzero : forall d, (d < H)%nat ->
              seam !! (H - 1 - d)%nat = Some 0).
    { induction d as [| d IH]; intros Hd.
      - now rewrite Nat.sub_0_r.
      - destruct (Hchain (H - 1 - S d)%nat ltac:(lia)) as (x & Hx & Hprev).
        replace (H - 1 - S d + 1)%nat with (H - 1 - d)%nat in * by lia.
        rewrite IH in Hx by lia. injection Hx as <-.
        rewrite Hprev. unfold offset_at. change (Z.to_nat 0) with 0%nat.
        now rewrite (Hcol0 (H - 1 - d)%nat) by lia. }
    apply list_eq. intros i.
    destruct (decide (i < H)%nat) as [Hi | Hi].
    + rewrite lookup_replicate_2 by exact Hi.
      replace i with (H - 1 - (H - 1 - i))%nat by lia.
      apply Hzero. lia.
    + rewrite lookup_ge_None_2 by lia. symmetry.
      apply lookup_replicate_None. lia.
Qed.

(** X11.  On a constant energy grid every seam costs the same, and the one
    the carver takes is the leftmost column: [seam_end] returns column 0
    and [find_seam] stays in it. *)
Theorem constant_energy_seam (H W : nat) (k : Z) :
  (1 <= H)%nat -> (1 <= W)%nat ->
  exists paths pe,
    cumulative_energy (replicate H (replicate W k)) = Ok (paths, pe) /\
    seam_end pe = Ok 0 /\
    find_seam paths 0 = Ok (replicate H 0).
Proof. exact (constant_energy_pipeline H W k). Qed.

Lemma constant_energy_seam_witness :
  exists paths pe,
    cumulative_energy (replicate 3 (replicate 4 7)) = Ok (paths, pe) /\
    seam_end pe = Ok 0 /\
    find_seam paths 0 = Ok [0; 0; 0].
Proof. apply (constant_energy_seam 3 4 7); lia. Defined.

(** One turn of the loop on a uniform image. *)
Lemma carve_uniform (d : dtype) (H W : nat) (p : list Z) :
  (1 <= H)%nat -> (1 <= W)%nat -> (1 <= length p)%nat ->
  carve d (uniform H W p) = Ok (uniform H (W - 1) p).
Proof.
  intros HH HW Hp.
  assert (Hshape : image_shape H W (length p) (uniform H W p)).
  { split; [apply rect_replicate |].
    apply Forall_replicate, Forall_replicate. reflexivity. }
  destruct (energy_map_cells d H W (length p) _ HH HW Hp Hshape)
    as (energy & Hmap & Hen & Hcells).
  assert (Hzero : energy = replicate H (replicate W 0)).
  { apply (grid_ext H W); [exact Hen | apply rect_replicate |].
    intros r c Hr Hc. rewrite cell_replicate by assumption.
    destruct (Hcells r c Hr Hc)
      as (west & east & north & south & Hw & He & Hn & Hs & ->).
    unfold uniform in Hw, He, Hn, Hs.
    rewrite cell_replicate in Hw, He, Hn, Hs
      by (try apply neighbour_index; assumption).
    injection Hw as <-. injection He as <-.
    injection Hn as <-. injection Hs as <-.
    now rewrite squared_difference_self, wrap_0. }
  destruct (constant_energy_pipeline H W 0 HH HW)
    as (P & E & Hcum & Hend & Hseam).
  unfold carve. rewrite Hmap, Hzero. cbn [bind]. rewrite Hcum. cbn [bind].
  rewrite Hend. cbn [bind]. rewrite Hseam. cbn [bind].
  destruct (remove_seam_ok H W (uniform H W p) (replicate H 0))
    as [Hrun _].
  { apply rect_replicate. }
  { apply length_replicate. }
  { apply Forall_replicate. lia. }
  rewrite Hrun. f_equal. apply list_eq. intros r.
  rewrite list_lookup_fmap. unfold uniform.
  destruct (decide (r < H)%nat) as [Hr | Hr].
  - rewrite lookup_seq_lt, lookup_replicate_2 by exact Hr. cbn. f_equal.
    unfold carved_row. rewrite !lookup_replicate_2 by exact Hr.
    cbn [Z.to_nat take app]. rewrite drop_replicate. reflexivity.
  - rewrite lookup_seq_ge by lia. symmetry.
    apply lookup_replicate_None. lia.
Qed.

Lemma carve_loop_uniform (d : dtype) (H : nat) (p : list Z)
    (turns : list nat) :
  (1 <= H)%nat -> (1 <= length p)%nat ->
  forall W, (length turns <= W)%nat ->
  for_each (fun img _ => carve d img) turns (uniform H W p)
  = Ok (uniform H (W - length turns) p).
Proof.
  intros HH Hp.
  induction turns as [| t turns IH]; intros W Hn; cbn [length] in *.
  - cbn. now rewrite Nat.sub_0_r.
  - cbn [for_each]. rewrite carve_uniform by (try assumption; lia).
    cbn [bind]. rewrite IH by lia. do 2 f_equal. lia.
Qed.

(** X12.  A uniform image has energy 0 everywhere, and by the leftmost
    tie-break every seam is column 0: removing [K] columns of a uniform
    image leaves the uniform image of [W - K] columns. *)
Theorem resize_image_uniform (d : dtype) (H W : nat) (p : list Z) (K : Z) :
  (1 <= H)%nat -> (1 <= length p)%nat -> 0 <= K <= Z.of_nat W ->
  resize_image d (uniform H W p) K = Ok (uniform H (W - Z.to_nat K) p).
Proof.
  intros HH Hp HK. unfold resize_image.
  rewrite (carve_loop_uniform d H p (seq 0 (Z.to_nat K)) HH Hp W)
    by (rewrite length_seq; lia).
  now rewrite length_seq.
Qed.

Lemma resize_image_uniform_witness :
  resize_image UInt8 (uniform 2 3 [9; 9; 9]) 2 = Ok (uniform 2 1 [9; 9; 9]).
Proof. apply (resize_image_uniform UInt8 2 3 [9; 9; 9] 2); cbn; lia. Defined.

(** ** What the cumulative table means: least energies of connected paths *)

Lemma seam_energy_snoc (seam : list Z) : forall (energy : grid) row x,
  energy !! length seam = Some row ->
  seam_energy energy (seam ++ [x])
  = seam_energy energy seam + energy_at row x.
Proof.
  unfold seam_energy, sum_list.
  induction seam as [| a seam IH]; intros [| r0 energy] row x Hrow;
    try discriminate Hrow.
  - cbn in Hrow. injection Hrow as ->. cbn [app zip_with fold_right].
    rewrite zip_with_nil_r. cbn. lia.
  - cbn in Hrow. cbn [app zip_with fold_right].
    rewrite (IH energy row x Hrow). lia.
Qed.

Lemma seam_energy_nil (energy : grid) : seam_energy energy [] = 0.
Proof. unfold seam_energy. now rewrite zip_with_nil_r. Qed.

Lemma connected_snoc (W : nat) (s : list Z) (x : Z) :
  connected W (s ++ [x]) <->
  connected W s /\ 0 <= x < Z.of_nat W /\
  (forall a, last s = Some a -> -1 <= x - a <= 1).
Proof.
  unfold connected. split.
  - intros [Hall Hadj]. apply Forall_app in Hall as [Hs Hx].
    inversion Hx as [| ? ? Hx0 _]; subst.
    split; [split; [exact Hs |] |].
    + intros i a b Ha Hb. apply (Hadj i a b).
      * rewrite lookup_app_l; [exact Ha | now apply lookup_lt_Some in Ha].
      * rewrite lookup_app_l; [exact Hb | now apply lookup_lt_Some in Hb].
    + split; [exact Hx0 |]. intros a Ha. rewrite last_lookup in Ha.
      assert (Hlen : (0 < length s)%nat)
        by (apply lookup_lt_Some in Ha; destruct s; cbn in *; lia).
      apply (Hadj (pred (length s)) a x).
      * rewrite lookup_app_l; [exact Ha | lia].
      * rewrite lookup_app_r by lia.
        now replace (S (pred (length s)) - length s)%nat with 0%nat by lia.
  - intros ([Hall Hadj] & Hx & Hlast). split.
    + apply Forall_app. split; [exact Hall | now constructor].
    + intros i a b Ha Hb.
      destruct (decide (S i < length s)%nat) as [Hlt | Hge].
      * rewrite lookup_app_l in Ha, Hb by lia. exact (Hadj i a b Ha Hb).
      * assert (Hi : S i = length s).
        { apply lookup_lt_Some in Hb. rewrite length_app in Hb.
          cbn in Hb. lia. }
        rewrite lookup_app_l in Ha by lia.
        rewrite lookup_app_r in Hb by lia.
        replace (S i - length s)%nat with 0%nat in Hb by lia.
        injection Hb as <-. apply Hlast. rewrite last_lookup.
        now replace (pred (length s)) with i by lia.
Qed.

(** The meaning holds as long as no total leaves the int64 range. *)
Section LeastEnergy.

Variables (H W : nat) (energy paths pe : grid) (B : Z).
Hypothesis (HH : (1 <= H)%nat) (Hen : rect H W energy).
Hypothesis (Hrun : cumulative_energy energy = Ok (paths, pe)).
Hypothesis (Hno : no_overflow H energy B).

Lemma tables_done :
  rect H W paths /\ rect H W pe /\
  pe !! 0%nat = energy !! 0%nat /\
  (forall i j, (1 <= i < H)%nat -> (j < W)%nat ->
     cell_exact W energy paths pe i j).
Proof.
  destruct (cumulative_energy_exact H W energy paths pe B HH Hen Hno Hrun)
    as (HP & HE & Hrow0 & Hdone & _).
  tauto.
Qed.

(** No connected path from the top row to a cell costs less than the
    entry of the table for that cell. *)
Lemma table_lower_bound (n : nat) : forall (s : list Z) (x : Z),
  length s = n -> (n < H)%nat -> connected W (s ++ [x]) ->
  exists v,
    cell pe n (Z.to_nat x) = Some v /\ v <= seam_energy energy (s ++ [x]).
Proof.
  destruct tables_done as (HP & HE & Hrow0 & Hdone).
  induction n as [| n IH]; intros s x Hlen Hn Hconn.
  - destruct s; [| discriminate Hlen].
    apply connected_snoc in Hconn as (_ & Hx & _).
    destruct (rect_row H W energy 0 Hen) as (row0 & Hr0 & Hw); [lia |].
    destruct (lookup_lt_is_Some_2 row0 (Z.to_nat x)) as [v Hv]; [lia |].
    exists v. split.
    + unfold cell. now rewrite Hrow0, Hr0.
    + rewrite (seam_energy_snoc [] energy row0 x Hr0), seam_energy_nil.
      unfold energy_at. rewrite Hv. cbn. lia.
  - destruct s as [| a0 s0] using rev_ind;
      [discriminate Hlen |]. clear IHs0.
    rewrite length_app in Hlen. cbn in Hlen.
    apply connected_snoc in Hconn as (Hconn & Hx & Hadj).
    specialize (Hadj a0 (last_snoc _ _)).
    destruct (IH s0 a0 ltac:(lia) ltac:(lia) Hconn) as (va & Hva & Hle).
    apply connected_snoc in Hconn as (_ & Ha & _).
    destruct (Hdone (S n) (Z.to_nat x) ltac:(lia) ltac:(lia))
      as (prev & c & m & e & Hprev & (_ & _ & Hleast & _) & He & Hsum & _).
    replace (S n - 1)%nat with n in Hprev by lia.
    assert (Hm : m <= va).
    { apply (Hleast (Z.to_nat a0)); [unfold in_window; lia |].
      unfold cell in Hva. now rewrite Hprev in Hva. }
    exists (e + m). split; [exact Hsum |].
    unfold cell in He.
    destruct (energy !! S n) as [erow |] eqn:Herow; [| discriminate].
    rewrite (seam_energy_snoc (s0 ++ [a0]) energy erow x).
    + unfold energy_at. rewrite He. cbn. lia.
    + rewrite length_app. cbn.
      now replace (length s0 + 1)%nat with (S n) by lia.
Qed.

(** Backtracking from a cell follows a connected path that costs exactly
    the entry of the table for that cell. *)
Lemma table_attained (n : nat) : forall (x : Z),
  (n < H)%nat -> 0 <= x < Z.of_nat W ->
  connected W (rev (x :: backtrack paths n x)) /\
  cell pe n (Z.to_nat x)
  = Some (seam_energy energy (rev (x :: backtrack paths n x))).
Proof.
  destruct tables_done as (HP & HE & Hrow0 & Hdone).
  induction n as [| n IH]; intros x Hn Hx.
  - cbn [backtrack rev app]. split.
    + apply (connected_snoc W [] x). split; [| split; [exact Hx |]].
      * split; [constructor | intros i a b Ha; discriminate Ha].
      * intros a Ha. discriminate Ha.
    + destruct (rect_row H W energy 0 Hen) as (row0 & Hr0 & Hw); [lia |].
      destruct (lookup_lt_is_Some_2 row0 (Z.to_nat x)) as [v Hv]; [lia |].
      change [x] with ([] ++ [x]).
      rewrite (seam_energy_snoc [] energy row0 x Hr0), seam_energy_nil.
      unfold energy_at, cell. rewrite Hrow0, Hr0, Hv. cbn. f_equal.
  - destruct (Hdone (S n) (Z.to_nat x) ltac:(lia) ltac:(lia))
      as (prev & c & m & e & Hprev & ([Hc HcW] & Hm & _) & He & Hsum & Hoff).
    replace (S n - 1)%nat with n in Hprev by lia.
    assert (Hnext : x + offset_at paths (S n) x = Z.of_nat c).
    { unfold offset_at. rewrite Hoff. lia. }
    cbn [backtrack]. rewrite Hnext.
    change (rev (x :: Z.of_nat c :: backtrack paths n (Z.of_nat c)))
      with (rev (Z.of_nat c :: backtrack paths n (Z.of_nat c)) ++ [x]).
    destruct (IH (Z.of_nat c) ltac:(lia) ltac:(lia)) as [Hconn Hcell].
    set (t := rev (Z.of_nat c :: backtrack paths n (Z.of_nat c))) in *.
    assert (Hlen : length t = S n).
    { unfold t. rewrite length_rev. cbn. now rewrite backtrack_length. }
    split.
    + apply connected_snoc. split; [exact Hconn |]. split; [exact Hx |].
      intros a Ha. unfold t in Ha. cbn [rev] in Ha.
      rewrite last_snoc in Ha. injection Ha as <-. lia.
    + rewrite Nat2Z.id in Hcell. unfold cell in Hcell.
      rewrite Hprev, Hm in Hcell. injection Hcell as Hcell.
      unfold cell in He.
      destruct (energy !! S n) as [erow |] eqn:Herow; [| discriminate].
      rewrite (seam_energy_snoc t energy erow x) by (now rewrite Hlen).
      unfold energy_at. rewrite He, Hsum, <- Hcell. cbn. f_equal. lia.
Qed.

End LeastEnergy.

(** X13.  As long as no total leaves the int64 range (energies of absolute
    value at most [B], and [H * B < 2 ^ 63]), every entry of the cumulative
    table is the least energy of a connected path from the top row to its
    cell: no such path costs less, and the path that backtracking follows
    from the cell costs exactly that. *)
Theorem cumulative_energy_least (H W : nat) (energy : grid) (B : Z) :
  (1 <= H)%nat -> (1 <= W)%nat -> rect H W energy ->
  no_overflow H energy B ->
  exists paths path_energies,
    cumulative_energy energy = Ok (paths, path_energies) /\
    forall i j, (i < H)%nat -> (j < W)%nat ->
      exists v,
        cell path_energies i j = Some v /\
        (forall s, length s = S i -> connected W s ->
           last s = Some (Z.of_nat j) -> v <= seam_energy energy s) /\
        (exists s, length s = S i /\ connected W s /\
           last s = Some (Z.of_nat j) /\ seam_energy energy s = v).
Proof.
  intros HH HW Hen Hno.
  destruct (cumulative_energy_tables H W energy HH Hen)
    as (P & E & Hrun & _ & HE & _).
  exists P, E. split; [exact Hrun |].
  intros i j Hi Hj.
  destruct (table_attained H W energy P E B HH Hen Hrun Hno i (Z.of_nat j)
              Hi)
    as [Hconn Hcell]; [lia |].
  rewrite Nat2Z.id in Hcell.
  exists (seam_energy energy (rev (Z.of_nat j :: backtrack P i (Z.of_nat j)))).
  split; [exact Hcell |]. split.
  - intros s Hlen Hs Hlast.
    destruct s as [| x s0] using rev_ind; [discriminate Hlen |]. clear IHs0.
    rewrite last_snoc in Hlast. injection Hlast as ->.
    rewrite length_app in Hlen. cbn in Hlen.
    destruct (table_lower_bound H W energy P E B HH Hen Hrun Hno i s0
                (Z.of_nat j))
      as (v & Hv & Hle); [lia | exact Hi | exact Hs |].
    rewrite Nat2Z.id, Hcell in Hv. injection Hv as <-. exact Hle.
  - exists (rev (Z.of_nat j :: backtrack P i (Z.of_nat j))).
    split. { rewrite length_rev. cbn. now rewrite backtrack_length. }
    split; [exact Hconn |]. split; [| reflexivity].
    cbn [rev]. apply last_snoc.
Qed.

Lemma cumulative_energy_least_witness :
  exists paths path_energies,
    cumulative_energy [[5; 1; 5; 0]; [9; 9; 9; 9]; [1; 2; 3; 4]]
    = Ok (paths, path_energies) /\
    exists v,
      cell path_energies 2 0 = Some v /\
      v <= seam_energy [[5; 1; 5; 0]; [9; 9; 9; 9]; [1; 2; 3; 4]] [0; 0; 0].
Proof.
  destruct (cumulative_energy_least 3 4
              [[5; 1; 5; 0]; [9; 9; 9; 9]; [1; 2; 3; 4]] 9)
    as (P & E & Hrun & Hleast).
  - lia.
  - lia.
  - apply rect_concrete; reflexivity.
  - split; [lia |]. split; [reflexivity |].
    intros [| [| [| i]]] [| [| [| [| j]]]] e He; cbn in He;
      try discriminate; injection He as <-; lia.
  - exists P, E. split; [exact Hrun |].
    destruct (Hleast 2%nat 0%nat) as (v & Hv & Hlow & _); [lia | lia |].
    exists v. split; [exact Hv |]. apply Hlow; [reflexivity | | reflexivity].
    split; [repeat constructor; lia |].
    intros [| [| [| i]]] a b Ha Hb; cbn in Ha, Hb; try discriminate;
      injection Ha as <-; injection Hb as <-; lia.
Defined.

(** [find_seam] returns the path that backtracking follows. *)
Lemma find_seam_backtrack (H W : nat) (paths : grid) (end_x : Z) :
  (1 <= H)%nat -> rect H W paths -> offsets_in_grid W paths ->
  0 <= end_x < Z.of_nat W ->
  find_seam paths end_x
  = Ok (rev (end_x :: backtrack paths (H - 1) end_x)).
Proof.
  intros HH HP Hgrid Hx.
  destruct (find_seam_loop H W paths (H - 1) [] end_x HP Hgrid)
    as [Hloop _]; [lia | exact Hx |].
  unfold find_seam, height. destruct HP as [-> _].
  cbn [app] in Hloop. now rewrite Hloop.
Qed.

(** X14.  As long as no total leaves the int64 range (energies of absolute
    value at most [B], and [H * B < 2 ^ 63]), the seam that the carver
    removes is a connected seam of least energy: it has one column of the
    grid in every row, moves by at most one column from row to row, and no
    such seam has a smaller sum of energies. *)
Theorem pipeline_seam_least_energy (H W : nat) (energy : grid) (B : Z) :
  (1 <= H)%nat -> (1 <= W)%nat -> rect H W energy ->
  no_overflow H energy B ->
  exists paths path_energies end_x seam,
    cumulative_energy energy = Ok (paths, path_energies) /\
    seam_end path_energies = Ok end_x /\
    find_seam paths end_x = Ok seam /\
    length seam = H /\ connected W seam /\
    forall s, length s = H -> connected W s ->
      seam_energy energy seam <= seam_energy energy s.
Proof.
  intros HH HW Hen Hno.
  destruct (cumulative_energy_tables H W energy HH Hen)
    as (P & E & Hrun & HP & HE & _).
  destruct (cumulative_energy_offsets H W energy P E HH Hen Hrun)
    as (_ & _ & Hoff).
  assert (Hgrid : offsets_in_grid W P).
  { intros i j o Hi Hc. now apply (Hoff i j o Hi Hc). }
  destruct (seam_end_leftmost H W E HH HW HE)
    as (end_x & last_row & m & Hend & Hlast & HxW & Hm & Hleast & _).
  pose proof (find_seam_backtrack H W P (Z.of_nat end_x) HH HP Hgrid
                ltac:(lia)) as Hseam.
  destruct (table_attained H W energy P E B HH Hen Hrun Hno (H - 1)
              (Z.of_nat end_x)) as [Hconn Hcell]; [lia | lia |].
  set (seam := rev (Z.of_nat end_x
                    :: backtrack P (H - 1) (Z.of_nat end_x))) in *.
  exists P, E, (Z.of_nat end_x), seam.
  split; [exact Hrun |]. split; [exact Hend |]. split; [exact Hseam |].
  split.
  { unfold seam. rewrite length_rev. cbn. rewrite backtrack_length. lia. }
  split; [exact Hconn |].
  intros s Hlen Hs.
  destruct s as [| x s0] using rev_ind; [cbn in Hlen; lia |]. clear IHs0.
  rewrite length_app in Hlen. cbn in Hlen.
  destruct (table_lower_bound H W energy P E B HH Hen Hrun Hno (H - 1) s0 x)
    as (v & Hv & Hle); [lia | lia | exact Hs |].
  rewrite Nat2Z.id in Hcell. unfold cell in Hcell, Hv.
  rewrite Hlast in Hcell, Hv. rewrite Hm in Hcell. injection Hcell as <-.
  specialize (Hleast _ _ Hv). lia.
Qed.

Lemma pipeline_seam_least_energy_witness :
  exists paths path_energies end_x seam,
    cumulative_energy [[5; 1; 5; 0]; [9; 9; 9; 9]; [1; 2; 3; 4]]
    = Ok (paths, path_energies) /\
    seam_end path_energies = Ok end_x /\
    find_seam paths end_x = Ok seam /\
    seam_energy [[5; 1; 5; 0]; [9; 9; 9; 9]; [1; 2; 3; 4]] seam
    <= seam_energy [[5; 1; 5; 0]; [9; 9; 9; 9]; [1; 2; 3; 4]] [3; 3; 3].
Proof.
  destruct (pipeline_seam_least_energy 3 4
              [[5; 1; 5; 0]; [9; 9; 9; 9]; [1; 2; 3; 4]] 9)
    as (P & E & end_x & seam & H1 & H2 & H3 & _ & _ & Hleast).
  - lia.
  - lia.
  - apply rect_concrete; reflexivity.
  - split; [lia |]. split; [reflexivity |].
    intros [| [| [| i]]] [| [| [| [| j]]]] e He; cbn in He;
      try discriminate; injection He as <-; lia.
  - exists P, E, end_x, seam. repeat (split; [assumption |]).
    apply Hleast; [reflexivity |].
    split; [repeat constructor; lia |].
    intros [| [| [| i]]] a b Ha Hb; cbn in Ha, Hb; try discriminate;
      injection Ha as <-; injection Hb as <-; lia.
Defined.

(** ** Carving and pointwise changes of the channel values *)

Section Pointwise.

Variable d : dtype.
Variable f : Z -> Z.
Hypothesis f_isometry : forall u v,
  ((f u - f v) ^ 2) mod 2 ^ bits d = ((u - v) ^ 2) mod 2 ^ bits d.

Lemma squared_difference_pointwise (p : list Z) : forall q,
  squared_difference (map f p) (map f q) mod 2 ^ bits d
  = squared_difference p q mod 2 ^ bits d.
Proof.
  unfold squared_difference, sum_list.
  induction p as [| x p IH]; intros [| y q]; try reflexivity.
  cbn [map zip_with fold_right].
  now rewrite Zplus_mod, IH, f_isometry, <- Zplus_mod.
Qed.

Lemma image_shape_pointwise (H W C : nat) (img : image) :
  image_shape H W C img -> image_shape H W C (pointwise f img).
Proof.
  intros [Hrect Hpx]. split; [now apply rect_map |].
  unfold pointwise. apply Forall_fmap. eapply Forall_impl; [exact Hpx |].
  cbn. intros row Hrow. apply Forall_fmap.
  eapply Forall_impl; [exact Hrow |]. cbn. intros p Hp.
  now rewrite length_map.
Qed.

Lemma energy_map_pointwise (H W C : nat) (img : image) :
  (1 <= H)%nat -> (1 <= W)%nat -> (1 <= C)%nat ->
  image_shape H W C img ->
  energy_map d (pointwise f img) = energy_map d img.
Proof.
  intros HH HW HC Hshape.
  destruct (energy_map_neighbours d H W C img HH HW HC Hshape)
    as (energy & Hrun & Hen & Hcells).
  destruct (energy_map_neighbours d H W C (pointwise f img) HH HW HC
              (image_shape_pointwise H W C img Hshape))
    as (energy' & Hrun' & Hen' & Hcells').
  rewrite Hrun, Hrun'. f_equal.
  apply (grid_ext H W); [exact Hen' | exact Hen |].
  intros r c Hr Hc. rewrite Hcells', Hcells by assumption.
  unfold neighbour_energy, pointwise. rewrite !cell_map.
  destruct (cell img r _) as [west |]; [| reflexivity].
  destruct (cell img r _) as [east |]; [| reflexivity].
  destruct (cell img _ c) as [north |]; [| reflexivity].
  destruct (cell img _ c) as [south |]; [| reflexivity].
  cbn. f_equal. apply wrap_congr.
  now rewrite Zplus_mod, !squared_difference_pointwise, <- Zplus_mod.
Qed.

Lemma carved_row_pointwise (img : image) (seam : list Z) (r : nat) :
  carved_row (pointwise f img) seam r
  = map (map f) (carved_row img seam r).
Proof.
  unfold carved_row, pointwise. rewrite list_lookup_fmap.
  destruct (img !! r) as [row |]; [| reflexivity]. cbn.
  destruct (seam !! r) as [s |]; [| reflexivity].
  now rewrite fmap_app, fmap_take, fmap_drop.
Qed.

Lemma carve_pointwise (H W C : nat) (img : image) :
  (1 <= H)%nat -> (1 <= W)%nat -> (1 <= C)%nat ->
  image_shape H W C img ->
  exists img',
    carve d img = Ok img' /\ image_shape H (W - 1) C img' /\
    carve d (pointwise f img) = Ok (pointwise f img').
Proof.
  intros HH HW HC Hshape. pose proof Hshape as [Hrect _].
  destruct (energy_map_cells d H W C img HH HW HC Hshape)
    as (energy & Hmap & Hen & _).
  destruct (pipeline_seam H W energy HH HW Hen)
    as (P & E & end_x & seam & Hcum & Hend & Hseam & Hlen & Hall & _).
  destruct (remove_seam_shape H W C img seam Hshape Hlen Hall)
    as (img' & Hrm & Hshape').
  destruct (remove_seam_ok H W img seam Hrect Hlen Hall) as [Hrm1 _].
  destruct (remove_seam_ok H W (pointwise f img) seam) as [Hrm2 _];
    [now apply rect_map | exact Hlen | exact Hall |].
  rewrite Hrm in Hrm1. injection Hrm1 as Himg'.
  exists img'. split; [| split; [exact Hshape' |]].
  - unfold carve. rewrite Hmap. cbn [bind]. rewrite Hcum. cbn [bind].
    rewrite Hend. cbn [bind]. rewrite Hseam. exact Hrm.
  - unfold carve. rewrite (energy_map_pointwise H W C) by assumption.
    rewrite Hmap. cbn [bind]. rewrite Hcum. cbn [bind].
    rewrite Hend. cbn [bind]. rewrite Hseam. cbn [bind].
    rewrite Hrm2. f_equal.
    rewrite Himg'. unfold pointwise at 2. rewrite map_map.
    apply map_ext. intros r. apply carved_row_pointwise.
Qed.

Lemma carve_loop_pointwise (H C : nat) (turns : list nat) :
  (1 <= H)%nat -> (1 <= C)%nat ->
  forall (W : nat) (img : image),
    (length turns <= W)%nat -> image_shape H W C img ->
    exists out,
      for_each (fun img _ => carve d img) turns img = Ok out /\
      for_each (fun img _ => carve d img) turns (pointwise f img)
      = Ok (pointwise f out).
Proof.
  intros HH HC.
  induction turns as [| t turns IH]; intros W img Hn Hshape;
    cbn [length] in Hn.
  - exists img. split; reflexivity.
  - destruct (carve_pointwise H W C img HH ltac:(lia) HC Hshape)
      as (img1 & Hcarve & Hshape1 & Hcarve').
    destruct (IH (W - 1)%nat img1 ltac:(lia) Hshape1)
      as (out & Hloop & Hloop').
    exists out. cbn [for_each]. rewrite Hcarve, Hcarve'. cbn [bind].
    split; [exact Hloop | exact Hloop'].
Qed.

End Pointwise.

(** X15.  Carving commutes with a pointwise change of the channel values
    that stays in the dtype of the image and keeps the squared distances
    as the dtype computes them, modulo [2 ^ bits], such as the negative
    [255 - v] of a uint8 image: the energies, hence the seams, are the
    same, and the result is the changed result. *)
Theorem resize_image_pointwise (d : dtype) (H W C : nat) (img : image)
    (K : Z) (f : Z -> Z) :
  (1 <= H)%nat -> (1 <= C)%nat -> image_shape H W C img ->
  0 <= K <= Z.of_nat W ->
  Forall (Forall (Forall (in_dtype d))) img ->
  (forall v, in_dtype d v -> in_dtype d (f v)) ->
  (forall u v,
     ((f u - f v) ^ 2) mod 2 ^ bits d = ((u - v) ^ 2) mod 2 ^ bits d) ->
  exists out,
    resize_image d img K = Ok out /\
    resize_image d (pointwise f img) K = Ok (pointwise f out).
Proof.
  intros HH HC Hshape HK _ _ Hf. unfold resize_image.
  apply (carve_loop_pointwise d f Hf H C (seq 0 (Z.to_nat K)) HH HC W);
    [rewrite length_seq; lia | exact Hshape].
Qed.

Lemma resize_image_pointwise_witness :
  exists out,
    resize_image UInt8 [[[10]; [200]; [30]]; [[40]; [50]; [251]]] 1
    = Ok out /\
    resize_image UInt8
      (pointwise (fun v => 255 - v) [[[10]; [200]; [30]]; [[40]; [50]; [251]]])
      1
    = Ok (pointwise (fun v => 255 - v) out).
Proof.
  apply (resize_image_pointwise UInt8 2 3 1).
  - lia.
  - lia.
  - apply image_shape_concrete; reflexivity.
  - lia.
  - unfold in_dtype. cbn [dtype_min dtype_max signed bits].
    repeat constructor; lia.
  - unfold in_dtype. cbn [dtype_min dtype_max signed bits].
    intros v Hv. lia.
  - intros u v. f_equal.
    replace (255 - u - (255 - v)) with (- (u - v)) by lia.
    rewrite !Z.pow_2_r. lia.
Defined.

(** ** Which seam of least energy: the leftmost from the bottom *)

Lemma lookup_snoc_above {A} (t s : list A) (x : A) (i : nat) :
  length t = length s ->
  (forall k, (i < k)%nat -> t !! k = s !! k) ->
  forall k, (i < k)%nat -> (t ++ [x]) !! k = (s ++ [x]) !! k.
Proof.
  intros Hlen Habove k Hk.
  destruct (decide (k < length t)%nat) as [Hlt | Hge].
  - rewrite !lookup_app_l by lia. now apply Habove.
  - rewrite !lookup_app_r by lia. now rewrite Hlen.
Qed.

Section LeftmostSeam.

Variables (H W : nat) (energy paths pe : grid) (B : Z).
Hypothesis (HH : (1 <= H)%nat) (Hen : rect H W energy).
Hypothesis (Hrun : cumulative_energy energy = Ok (paths, pe)).
Hypothesis (Hno : no_overflow H energy B).

(** Among the connected paths to a cell that cost what the table says,
    the one that backtracking follows is the least, comparing the columns
    from the last row upwards. *)
Lemma backtrack_leftmost (n : nat) : forall (x : Z) (s0 : list Z) (v : Z),
  (n < H)%nat -> 0 <= x < Z.of_nat W -> length s0 = n ->
  connected W (s0 ++ [x]) ->
  cell pe n (Z.to_nat x) = Some v ->
  seam_energy energy (s0 ++ [x]) <= v ->
  s0 ++ [x] = rev (x :: backtrack paths n x) \/
  exists i a b,
    rev (x :: backtrack paths n x) !! i = Some a /\
    (s0 ++ [x]) !! i = Some b /\ a < b /\
    forall k, (i < k)%nat ->
      rev (x :: backtrack paths n x) !! k = (s0 ++ [x]) !! k.
Proof.
  destruct (tables_done H W energy paths pe B HH Hen Hrun Hno)
    as (HP & HE & Hrow0 & Hdone).
  induction n as [| n IH]; intros x s0 v Hn Hx Hlen Hconn Hv Hle.
  - destruct s0; [| discriminate Hlen]. now left.
  - destruct s0 as [| a s1] using rev_ind; [discriminate Hlen |].
    clear IHs1. rewrite length_app in Hlen. cbn in Hlen.
    pose proof Hconn as Hconn0.
    apply connected_snoc in Hconn0 as (Hconn0 & _ & Hadj).
    specialize (Hadj a (last_snoc _ _)).
    pose proof Hconn0 as Hconn1.
    apply connected_snoc in Hconn1 as (_ & Ha & _).
    destruct (Hdone (S n) (Z.to_nat x) ltac:(lia) ltac:(lia))
      as (prev & c & m & e & Hprev
          & ([Hc HcW] & Hm & Hleast & Hleft) & He & Hsum & Hoff).
    replace (S n - 1)%nat with n in Hprev by lia.
    rewrite Hv in Hsum. injection Hsum as ->.
    assert (Hnext : x + offset_at paths (S n) x = Z.of_nat c).
    { unfold offset_at. rewrite Hoff. lia. }
    cbn [backtrack]. rewrite Hnext.
    change (rev (x :: Z.of_nat c :: backtrack paths n (Z.of_nat c)))
      with (rev (Z.of_nat c :: backtrack paths n (Z.of_nat c)) ++ [x]).
    set (t := rev (Z.of_nat c :: backtrack paths n (Z.of_nat c))).
    assert (Hlent : length t = S n).
    { unfold t. rewrite length_rev. cbn. now rewrite backtrack_length. }
    assert (Hlens : length (s1 ++ [a]) = S n)
      by (rewrite length_app; cbn; lia).
    assert (Hlast : t !! n = Some (Z.of_nat c)).
    { unfold t. cbn [rev]. rewrite lookup_app_r by (rewrite length_rev,
        backtrack_length; lia).
      rewrite length_rev, backtrack_length. now rewrite Nat.sub_diag. }
    unfold cell in He.
    destruct (energy !! S n) as [erow |] eqn:Herow; [| discriminate].
    rewrite (seam_energy_snoc (s1 ++ [a]) energy erow x) in Hle
      by (now rewrite Hlens).
    unfold energy_at in Hle. rewrite He in Hle. cbn in Hle.
    destruct (table_lower_bound H W energy paths pe B HH Hen Hrun Hno n s1 a)
      as (va & Hva & Hlow); [lia | lia | exact Hconn0 |].
    assert (Hpa : prev !! Z.to_nat a = Some va)
      by (unfold cell in Hva; now rewrite Hprev in Hva).
    assert (Hwin : in_window W (Z.to_nat x) (Z.to_nat a))
      by (unfold in_window; lia).
    pose proof (Hleast _ _ Hwin Hpa) as Hmva.
    assert (Hva_m : va = m) by lia. subst va.
    pose proof (Hleft _ Hwin Hpa) as Hca.
    destruct (decide (c = Z.to_nat a)) as [Heq | Hne].
    + assert (Ha' : a = Z.of_nat c) by lia. subst a.
      destruct (IH (Z.of_nat c) s1 m ltac:(lia) ltac:(lia) ltac:(lia)
                  Hconn0 Hva ltac:(lia))
        as [Hsame | (i & a' & b' & Hta & Hsb & Hlt & Habove)].
      * left. fold t in Hsame. now rewrite Hsame.
      * right. fold t in Hta, Habove.
        assert (Hi : (i < S n)%nat)
          by (apply lookup_lt_Some in Hta; lia).
        exists i, a', b'.
        rewrite !lookup_app_l by lia.
        split; [exact Hta |]. split; [exact Hsb |]. split; [exact Hlt |].
        apply lookup_snoc_above; [lia | exact Habove].
    + right. exists n, (Z.of_nat c), a.
      rewrite !lookup_app_l by lia.
      split; [exact Hlast |]. split.
      { rewrite lookup_app_r by lia.
        now replace (n - length s1)%nat with 0%nat by lia. }
      split; [lia |].
      intros k Hk. rewrite !lookup_app_r by lia.
      now rewrite Hlent, Hlens.
Qed.

End LeftmostSeam.

(** X16.  As long as no total leaves the int64 range (energies of absolute
    value at most [B], and [H * B < 2 ^ 63]), the seam that the carver
    removes is, among the connected seams of least energy, the leftmost one
    from the bottom: another connected seam that costs no more has a
    greater column in the lowest row in which the two differ. *)
Theorem pipeline_seam_leftmost (H W : nat) (energy : grid) (B : Z) :
  (1 <= H)%nat -> (1 <= W)%nat -> rect H W energy ->
  no_overflow H energy B ->
  exists paths path_energies end_x seam,
    cumulative_energy energy = Ok (paths, path_energies) /\
    seam_end path_energies = Ok end_x /\
    find_seam paths end_x = Ok seam /\
    forall s, length s = H -> connected W s ->
      seam_energy energy s <= seam_energy energy seam ->
      s = seam \/
      exists i a b,
        seam !! i = Some a /\ s !! i = Some b /\ a < b /\
        forall k, (i < k)%nat -> seam !! k = s !! k.
Proof.
  intros HH HW Hen Hno.
  destruct (cumulative_energy_tables H W energy HH Hen)
    as (P & E & Hrun & HP & HE & _).
  destruct (cumulative_energy_offsets H W energy P E HH Hen Hrun)
    as (_ & _ & Hoff).
  assert (Hgrid : offsets_in_grid W P).
  { intros i j o Hi Hc. now apply (Hoff i j o Hi Hc). }
  destruct (seam_end_leftmost H W E HH HW HE)
    as (end_x & last_row & m & Hend & Hlast & HxW & Hm & Hleast & Hleft).
  pose proof (find_seam_backtrack H W P (Z.of_nat end_x) HH HP Hgrid
                ltac:(lia)) as Hseam.
  destruct (table_attained H W energy P E B HH Hen Hrun Hno (H - 1)
              (Z.of_nat end_x)) as [Hconn Hcell]; [lia | lia |].
  set (seam := rev (Z.of_nat end_x
                    :: backtrack P (H - 1) (Z.of_nat end_x))) in *.
  assert (Hlen_seam : length seam = H).
  { unfold seam. rewrite length_rev. cbn. rewrite backtrack_length. lia. }
  assert (Hcost : seam_energy energy seam = m).
  { rewrite Nat2Z.id in Hcell. unfold cell in Hcell.
    rewrite Hlast, Hm in Hcell. now injection Hcell. }
  exists P, E, (Z.of_nat end_x), seam.
  split; [exact Hrun |]. split; [exact Hend |]. split; [exact Hseam |].
  intros s Hlen Hs Hle.
  destruct s as [| x s0] using rev_ind; [cbn in Hlen; lia |]. clear IHs0.
  rewrite length_app in Hlen. cbn in Hlen.
  destruct (table_lower_bound H W energy P E B HH Hen Hrun Hno (H - 1) s0 x)
    as (v & Hv & Hlow); [lia | lia | exact Hs |].
  pose proof Hs as Hx. apply connected_snoc in Hx as (_ & Hx & _).
  assert (Hvx : last_row !! Z.to_nat x = Some v)
    by (unfold cell in Hv; now rewrite Hlast in Hv).
  pose proof (Hleast _ _ Hvx) as Hmv.
  assert (Hvm : v = m) by lia. subst v.
  pose proof (Hleft _ Hvx) as Hex.
  destruct (decide (end_x = Z.to_nat x)) as [Heq | Hne].
  - assert (Hx' : x = Z.of_nat end_x) by lia. subst x.
    destruct (backtrack_leftmost H W energy P E B HH Hen Hrun Hno (H - 1)
                (Z.of_nat end_x) s0 m)
      as [Hsame | Hdiff]; try lia; try assumption.
    + now left.
    + right. exact Hdiff.
  - right. exists (H - 1)%nat, (Z.of_nat end_x), x.
    split.
    { unfold seam. cbn [rev]. rewrite lookup_app_r
        by (rewrite length_rev, backtrack_length; lia).
      rewrite length_rev, backtrack_length. now rewrite Nat.sub_diag. }
    split.
    { rewrite lookup_app_r by lia.
      now replace (H - 1 - length s0)%nat with 0%nat by lia. }
    split; [lia |].
    intros k Hk. rewrite !lookup_ge_None_2; [reflexivity | |].
    + rewrite length_app. cbn. lia.
    + lia.
Qed.

Lemma pipeline_seam_leftmost_witness :
  exists paths path_energies end_x seam,
    cumulative_energy [[1; 1; 1]; [1; 1; 1]] = Ok (paths, path_energies) /\
    seam_end path_energies = Ok end_x /\
    find_seam paths end_x = Ok seam /\
    ([1; 0] = seam \/
     exists i a b,
       seam !! i = Some a /\ [1; 0] !! i = Some b /\ a < b /\
       forall k, (i < k)%nat -> seam !! k = [1; 0] !! k).
Proof.
  destruct (pipeline_seam_leftmost 2 3 [[1; 1; 1]; [1; 1; 1]] 1)
    as (P & E & end_x & seam & H1 & H2 & H3 & Hleft).
  - lia.
  - lia.
  - apply rect_concrete; reflexivity.
  - split; [lia |]. split; [reflexivity |].
    intros [| [| i]] [| [| [| j]]] e He; cbn in He;
      try discriminate; injection He as <-; lia.
  - exists P, E, end_x, seam. repeat (split; [assumption |]).
    apply Hleft; [reflexivity | |].
    + split; [repeat constructor; lia |].
      intros [| [| i]] a b Ha Hb; cbn in Ha, Hb; try discriminate;
        injection Ha as <-; injection Hb as <-; lia.
    + pose proof (constant_energy_pipeline 2 3 1 ltac:(lia) ltac:(lia))
        as (P' & E' & H1' & H2' & H3').
      change (replicate 2 (replicate 3 1)) with [[1; 1; 1]; [1; 1; 1]] in H1'.
      rewrite H1 in H1'. injection H1' as <- <-.
      rewrite H2 in H2'. injection H2' as ->.
      rewrite H3 in H3'. injection H3' as ->.
      vm_compute. intros Hgt. discriminate Hgt.
Defined.

(** The energies of an image of dtype [d] are values of the dtype. *)
Lemma in_dtype_bound (d : dtype) (z : Z) :
  in_dtype d z -> - 2 ^ bits d <= z <= 2 ^ bits d.
Proof.
  pose proof (modulus_pos d). pose proof (modulus_half d).
  unfold in_dtype, dtype_min, dtype_max. destruct (signed d); lia.
Qed.

Lemma energy_map_no_overflow (d : dtype) (H W C : nat) (img : image)
    (energy : grid) :
  (1 <= H)%nat -> (1 <= W)%nat -> (1 <= C)%nat ->
  image_shape H W C img ->
  Z.of_nat H * 2 ^ bits d < 2 ^ 63 ->
  energy_map d img = Ok energy ->
  no_overflow H energy (2 ^ bits d).
Proof.
  intros HH HW HC Hshape Hfits Hmap.
  destruct (energy_map_cells d H W C img HH HW HC Hshape)
    as (energy' & Hmap' & Hen & Hcells).
  rewrite Hmap in Hmap'. injection Hmap' as <-.
  pose proof (modulus_pos d).
  split; [lia |]. split; [exact Hfits |].
  intros i j e He.
  destruct (cell_Some_lt H W energy i j e Hen He) as [Hi Hj].
  destruct (Hcells i j Hi Hj)
    as (west & east & north & south & _ & _ & _ & _ & Hcell).
  rewrite He in Hcell. injection Hcell as ->.
  apply in_dtype_bound, wrap_in_dtype.
Qed.

(** X17.  One turn of the loop of [resize_image] removes, from an image of
    at least one row, column and channel, of a dtype of [bits] bits and
    of a height [H] with [H * 2 ^ bits < 2 ^ 63] (so that no total leaves
    the int64 range: any height below [2 ^ 55] for 8-bit images), a
    connected seam of least energy in the energy map of that image: the
    image it leaves is the image without that seam. *)
Theorem carve_removes_least_seam (d : dtype) (H W C : nat) (img : image) :
  (1 <= H)%nat -> (1 <= W)%nat -> (1 <= C)%nat ->
  image_shape H W C img ->
  Z.of_nat H * 2 ^ bits d < 2 ^ 63 ->
  exists energy seam img',
    energy_map d img = Ok energy /\
    carve d img = Ok img' /\
    remove_seam img seam = Ok img' /\
    image_shape H (W - 1) C img' /\
    length seam = H /\ connected W seam /\
    forall s, length s = H -> connected W s ->
      seam_energy energy seam <= seam_energy energy s.
Proof.
  intros HH HW HC Hshape Hfits.
  destruct (energy_map_cells d H W C img HH HW HC Hshape)
    as (energy & Hmap & Hen & _).
  pose proof (energy_map_no_overflow d H W C img energy HH HW HC Hshape
                Hfits Hmap) as Hno.
  set (B := 2 ^ bits d) in *.
  destruct (cumulative_energy_tables H W energy HH Hen)
    as (P & E & Hrun & HP & HE & _).
  destruct (cumulative_energy_offsets H W energy P E HH Hen Hrun)
    as (_ & _ & Hoff).
  assert (Hgrid : offsets_in_grid W P).
  { intros i j o Hi Hc. now apply (Hoff i j o Hi Hc). }
  destruct (seam_end_leftmost H W E HH HW HE)
    as (end_x & last_row & m & Hend & Hlast & HxW & Hm & Hleast & _).
  pose proof (find_seam_backtrack H W P (Z.of_nat end_x) HH HP Hgrid
                ltac:(lia)) as Hseam.
  destruct (table_attained H W energy P E B HH Hen Hrun Hno (H - 1)
              (Z.of_nat end_x)) as [Hconn Hcell]; [lia | lia |].
  set (seam := rev (Z.of_nat end_x
                    :: backtrack P (H - 1) (Z.of_nat end_x))) in *.
  assert (Hlen : length seam = H).
  { unfold seam. rewrite length_rev. cbn. rewrite backtrack_length. lia. }
  destruct (remove_seam_shape H W C img seam Hshape Hlen (proj1 Hconn))
    as (img' & Hrm & Hshape').
  exists energy, seam, img'.
  split; [exact Hmap |]. split.
  { unfold carve. rewrite Hmap. cbn [bind]. rewrite Hrun. cbn [bind].
    rewrite Hend. cbn [bind]. rewrite Hseam. exact Hrm. }
  split; [exact Hrm |]. split; [exact Hshape' |].
  split; [exact Hlen |]. split; [exact Hconn |].
  intros s Hlens Hs.
  destruct s as [| x s0] using rev_ind; [cbn in Hlens; lia |]. clear IHs0.
  rewrite length_app in Hlens. cbn in Hlens.
  destruct (table_lower_bound H W energy P E B HH Hen Hrun Hno (H - 1) s0 x)
    as (v & Hv & Hle); [lia | lia | exact Hs |].
  rewrite Nat2Z.id in Hcell. unfold cell in Hcell, Hv.
  rewrite Hlast in Hcell, Hv. rewrite Hm in Hcell. injection Hcell as <-.
  specialize (Hleast _ _ Hv). lia.
Qed.

Lemma carve_removes_least_seam_witness :
  exists energy seam img',
    energy_map UInt8 [[[1]; [2]; [3]]; [[4]; [5]; [6]]; [[7]; [8]; [9]]]
    = Ok energy /\
    carve UInt8 [[[1]; [2]; [3]]; [[4]; [5]; [6]]; [[7]; [8]; [9]]]
    = Ok img' /\
    length seam = 3%nat /\ connected 3 seam.
Proof.
  destruct (carve_removes_least_seam UInt8 3 3 1
              [[[1]; [2]; [3]]; [[4]; [5]; [6]]; [[7]; [8]; [9]]])
    as (energy & seam & img' & H1 & H2 & _ & _ & H3 & H4 & _).
  - lia.
  - lia.
  - lia.
  - apply image_shape_concrete; reflexivity.
  - reflexivity.
  - exists energy, seam, img'. auto.
Defined.
